(** * Pitch detection (pitch_detection.py): a shallow embedding

    Numbers.  The program computes on IEEE doubles held in numpy arrays.
    The embedding uses exact rationals [Q]: every comparison and branch
    of the source is kept, rounding is not modelled, and the values
    inf/nan that numpy produces on a division by zero are outside the
    model (the one place where the source's control flow depends on such
    a division, the octave test, is written out case by case).

    Arrays.  A one-dimensional array is a [list Q]; a two-dimensional
    array is a list of rows, row [b] being frequency bin [b] and position
    [j] in a row being time frame [j].

    Failures.  Python exceptions are values of [exception], carried by
    [result]. *)

From Stdlib Require Import List Sorted ZArith QArith Qabs Qminmax Lia Lqa Bool.
Import ListNotations.
Open Scope Q_scope.

(** ** Numeric and control helpers *)

Module Num.

Definition Qltb (x y : Q) : bool := negb (Qle_bool y x).
Definition Qgtb (x y : Q) : bool := Qltb y x.
Definition Qgeb (x y : Q) : bool := Qle_bool y x.

End Num.
Import Num.

(** ** Exceptions *)

Inductive exception : Type :=
| AssertionError
| ValueError
| IndexError
| ZeroDivisionError.

Inductive result (A : Type) : Type :=
| Ok (a : A)
| Raise (e : exception).
Arguments Ok {A} a.
Arguments Raise {A} e.

Definition bind {A B : Type} (r : result A) (k : A -> result B) : result B :=
  match r with
  | Ok a => k a
  | Raise e => Raise e
  end.

Notation "x <- r ;; k" := (bind r (fun x => k))
  (at level 61, r at next level, right associativity).

(** np.mean of a one-dimensional array. *)
Definition mean (l : list Q) : Q :=
  fold_left Qplus l 0 / inject_Z (Z.of_nat (length l)).

(** ** Code of the repository that lives in util.py *)

Module Util.

(** Modelled from the spec: the test behind [find_peaks], which is defined
    in util.py and not in pitch_detection.py.  Section 4.3: "strict peak:
    greater than both neighbors; no magnitude threshold"; a peak is
    interior, the first and the last lag having one neighbour only. *)
Definition is_peak (f : list Q) (k : nat) : bool :=
  (1 <=? k)%nat && (k + 1 <? length f)%nat
  && Qltb (nth (k - 1) f 0) (nth k f 0)
  && Qltb (nth (k + 1) f 0) (nth k f 0).

(** Modelled from the spec: [find_peaks] of util.py.  Section 4.3: "Find
    all local maxima of this 1-D curve", in "peak-discovery (lag-ascending)
    order". *)
Definition find_peaks (f : list Q) : list nat :=
  filter (is_peak f) (seq 0 (length f)).

(** Modelled from the spec: the "small positive epsilon floor" of section
    4.2, with the value line 22 gives it, 1e-7. *)
Definition eps : Q := 1 # 10000000.

(** Modelled from the spec: the sub-sample shift of [parabolic_interp],
    which is defined in util.py.  Section 4.3: "1-D parabolic interpolation
    (same three-point formula as section 4.2, degenerate to the 1-D
    case)"; section 4.2: d2 = f[k+1] - f[k-1], avg = d2/2, den = 2*(f[k] -
    d2) floored at epsilon, shift = avg/den. *)
Definition interp_shift (f : list Q) (k : nat) : Q :=
  let d2 := nth (k + 1) f 0 - nth (k - 1) f 0 in
  let avg := d2 / 2 in
  let den := 2 * (nth k f 0 - d2) in
  let den := if Qltb den eps then eps else den in
  avg / den.

(** Modelled from the spec: the refined position, "bin + shift". *)
Definition interp_pos (f : list Q) (k : nat) : Q :=
  inject_Z (Z.of_nat k) + interp_shift f k.

(** Modelled from the spec: the refined magnitude, the raw value plus the
    "skew correction 0.5 * avg * shift". *)
Definition interp_mag (f : list Q) (k : nat) : Q :=
  let d2 := nth (k + 1) f 0 - nth (k - 1) f 0 in
  nth k f 0 + (1 # 2) * (d2 / 2) * interp_shift f k.

(** Modelled from the spec: [parabolic_interp] of util.py, on all peaks.
    Line 80 reads component [0] of what it returns as the refined lags;
    the magnitudes are taken to be the other component. *)
Definition parabolic_interp (f : list Q) (peaks : list nat) : list Q * list Q :=
  (map (interp_pos f) peaks, map (interp_mag f) peaks).

(** Modelled from the spec: [clean_audio] is defined in util.py.  Section
    4.4, step 1: "Clean signal (external collaborator: DC removal, optional
    band-limiting)"; section 3: "cleaning produces a new sequence".  The
    optional band-limiting is left out. *)
Definition clean_audio (l : list Q) : list Q :=
  map (fun x => x - mean l) l.

End Util.

(** ** detect_pitch_autocorr and detect_pitches *)

(** scipy's [fftconvolve(a, b, mode='full')] on one-dimensional inputs: the
    full linear convolution, of length [len a + len b - 1], and the empty
    array when either input is empty. *)
Fixpoint vadd (u v : list Q) : list Q :=
  match u, v with
  | [], _ => v
  | _, [] => u
  | x :: u', y :: v' => (x + y) :: vadd u' v'
  end.

Fixpoint fftconvolve (a b : list Q) : list Q :=
  match a with
  | [] => []
  | x :: a' =>
      vadd (map (Qmult x) b)
           (match fftconvolve a' b with
            | [] => []
            | c => 0 :: c
            end)
  end.

(** A one-dimensional array as the tracking entry point receives it: its
    number of dimensions and, when that is 1, its samples. *)
Record ndarray : Type := { ndim : nat; samples : list Q }.

Definition mono (l : list Q) : ndarray := {| ndim := 1; samples := l |}.

(** The two accumulators of the tracking loop. *)
Record tracker : Type := {
  pitches : list (Q * Q);
  all_pitches : list (Q * Q)
}.

Definition octave_thresh : Q := 5.

(** [np.abs(second / pitch - 2) < octave_thresh] on numpy doubles: a zero
    [pitch] makes the quotient inf or nan, and the comparison false. *)
Definition near_octave (second pitch : Q) : bool :=
  if Qeq_bool pitch 0 then false
  else Qltb (Qabs (second / pitch - 2)) octave_thresh.

(** Python's [float(i)/float(fs)]. *)
Definition float_div (i : Z) (fs : Q) : result Q :=
  if Qeq_bool fs 0 then Raise ZeroDivisionError else Ok (inject_Z i / fs).

(** [range(0, stop, step)]. *)
Fixpoint range_from (fuel : nat) (i stop step : Z) : list Z :=
  match fuel with
  | O => []
  | S fuel' =>
      if (i <? stop)%Z then i :: range_from fuel' (i + step)%Z stop step
      else []
  end.

Definition range0 (stop step : Z) : result (list Z) :=
  if (step =? 0)%Z then Raise ValueError
  else if (step <? 0)%Z then Ok []
  else Ok (range_from (Z.to_nat stop) 0 stop step).

(** [a[lo:hi]] for [0 <= lo]. *)
Definition slice (a : list Q) (lo hi : Z) : list Q :=
  firstn (Z.to_nat (hi - lo)) (skipn (Z.to_nat lo) a).

Section Tracking.

Variable clean_audio : list Q -> list Q.
Variable find_peaks : list Q -> list nat.
Variable parabolic_interp : list Q -> list nat -> list Q * list Q.

(** Lines 75-76: the non-negative-lag half of the autocorrelation. *)
Definition autocorr (signal : list Q) : list Q :=
  let corr := fftconvolve signal (rev signal) in
  skipn (length corr / 2) corr.

(** Lines 75-81.  A refined lag of exactly 0, where numpy's division
    yields inf, is outside the model. *)
Definition detect_pitch_autocorr (signal : list Q) (fs : Q) : list Q :=
  let corr := autocorr signal in
  let peaks := find_peaks corr in
  let interp_peak :=
    if negb (length peaks =? 0)%nat then fst (parabolic_interp corr peaks)
    else [] in
  if negb (length interp_peak =? 0)%nat then map (fun l => fs / l) interp_peak
  else [].

(** Line 106, [pitches[-1][1]]. *)
Definition last_pitch_of (st : tracker) : result Q :=
  match pitches st with
  | [] => Raise IndexError
  | p :: ps => Ok (snd (last ps p))
  end.

(** Lines 105-110: the pitch chosen for a window. *)
Definition choose_pitch (i : Z) (possible_pitches : list Q) (last_pitch : Q) : Q :=
  let pitch := nth 0 possible_pitches 0 in
  if (1 <? length possible_pitches)%nat
     && negb (i =? 0)%Z
     && Qgtb (Qabs (pitch - last_pitch))
             (Qabs (last_pitch - nth 1 possible_pitches 0))
     && near_octave (nth 1 possible_pitches 0) pitch
  then nth 1 possible_pitches 0
  else pitch.

(** Lines 104-113: the body of the loop, for the window at offset [i]. *)
Definition body (fs thresh : Q) (i : Z) (possible_pitches : list Q)
    (st : tracker) : result tracker :=
  if negb (length possible_pitches =? 0)%nat then
    last_pitch <- last_pitch_of st ;;
    let pitch := choose_pitch i possible_pitches last_pitch in
    t <- float_div i fs ;;
    let all' := all_pitches st ++ [(t, pitch)] in
    if Qgeb (Qabs (pitch - last_pitch)) thresh then
      t' <- float_div i fs ;;
      Ok {| pitches := pitches st ++ [(t', pitch)]; all_pitches := all' |}
    else Ok {| pitches := pitches st; all_pitches := all' |}
  else Ok st.

(** Lines 102-103: the candidates of the window at offset [i]. *)
Definition window (snd : list Q) (window_len i : Z) : list Q :=
  slice snd i (Z.min (Z.of_nat (length snd)) (i + window_len)).

Definition candidates (fs : Q) (snd : list Q) (window_len i : Z) : list Q :=
  detect_pitch_autocorr (window snd window_len i) fs.

Fixpoint loop (fs thresh : Q) (snd : list Q) (window_len : Z)
    (starts : list Z) (st : tracker) : result tracker :=
  match starts with
  | [] => Ok st
  | i :: rest =>
      st' <- body fs thresh i (candidates fs snd window_len i) st ;;
      loop fs thresh snd window_len rest st'
  end.

Definition init : tracker := {| pitches := [(0, 0)]; all_pitches := [] |}.

Definition detect_pitches (fs : Q) (snd : ndarray) (window_len : Z)
    (thresh : Q) : result (list (Q * Q) * list (Q * Q)) :=
  if negb (ndim snd =? 1)%nat then Raise AssertionError
  else
    let snd := clean_audio (samples snd) in
    starts <- range0 (Z.of_nat (length snd)) window_len ;;
    st <- loop fs thresh snd window_len starts init ;;
    Ok (tl (pitches st), all_pitches st).

End Tracking.

(** The event list still begins with the dummy entry. *)
Definition sentinel_headed (st : tracker) : Prop :=
  exists events, pitches st = (0, 0) :: events.

(** ** detect_pitch_parabolic and column_wise_local_max *)

Definition matrix : Type := list (list Q).

Fixpoint map2 {A B C : Type} (f : A -> B -> C) (u : list A) (v : list B)
    : list C :=
  match u, v with
  | x :: u', y :: v' => f x y :: map2 f u' v'
  | _, _ => []
  end.

(** Elementwise operations on arrays of one shape. *)
Definition mmap {A B : Type} (f : A -> B) (m : list (list A)) : list (list B) :=
  map (map f) m.

Definition mmap2 {A B C : Type} (f : A -> B -> C) (a : list (list A))
    (b : list (list B)) : list (list C) :=
  map2 (map2 f) a b.

Definition mget (m : matrix) (b j : nat) : Q := nth j (nth b m []) 0.

(** Number of columns of an array with at least one row. *)
Definition ncols {A : Type} (m : list (list A)) : nat :=
  match m with
  | [] => O
  | r :: _ => length r
  end.

(** [np.max(x, axis=0)]: numpy refuses to reduce over an empty axis. *)
Definition np_max_axis0 (x : matrix) : result (list Q) :=
  match x with
  | [] => Raise ValueError
  | r :: rest => Ok (fold_left (map2 Qmax) rest r)
  end.

Definition Qof_bool (b : bool) : Q := if b then 1 else 0.

(** [np.pad(x, [(1, 1), (0, 0)], mode='edge')] on an array with a row. *)
Definition pad_edge {A : Type} (x : list (list A)) : list (list A) :=
  match x with
  | [] => []
  | r :: _ => r :: x ++ [last x r]
  end.

(** [np.pad(a, ((1, 1), (0, 0)), mode='constant')] on an array of [t]
    columns. *)
Definition pad_zero (t : nat) (a : matrix) : matrix :=
  repeat 0 t :: a ++ [repeat 0 t].

(** Line 58, [x * (x > thresh * colmax)]: the values that fail the
    threshold are multiplied by zero. *)
Definition masked (x : matrix) (thresh : Q) (colmax : list Q) : matrix :=
  map (fun row =>
         map2 (fun v m => v * Qof_bool (Qgtb v (thresh * m))) row colmax)
      x.

(** Lines 58-63.  The two index lists of slices are read the way the numpy
    of the source reads them, as [pad_x[0:-2, :]] and [pad_x[2:, :]]. *)
Definition column_wise_local_max (x : matrix) (thresh : Q)
    : result (list (list bool)) :=
  colmax <- np_max_axis0 x ;;
  let x := masked x thresh colmax in
  let pad_x := pad_edge x in
  let below := firstn (length pad_x - 2) pad_x in
  let above := skipn 2 pad_x in
  Ok (mmap2 andb (mmap2 Qgtb x below) (mmap2 Qgeb x above)).

(** [np.argwhere] on a two-dimensional boolean array, in row-major order. *)
Definition argwhere (mask : list (list bool)) : list (nat * nat) :=
  flat_map
    (fun b => map (fun j => (b, j))
                (filter (fun j => nth j (nth b mask []) false)
                        (seq 0 (length (nth b mask [])))))
    (seq 0 (length mask)).

Fixpoint set_nth {A : Type} (n : nat) (x : A) (l : list A) : list A :=
  match l, n with
  | [], _ => []
  | _ :: t, O => x :: t
  | h :: t, S n' => h :: set_nth n' x t
  end.

Definition mset (m : matrix) (b j : nat) (v : Q) : matrix :=
  set_nth b (set_nth j v (nth b m [])) m.

(** [m[idx[:, 0], idx[:, 1]] = vals], the positions of [idx] lying inside
    [m] as those of [np.argwhere] on an array of its shape do. *)
Definition scatter (m : matrix) (idx : list (nat * nat)) (vals : list Q)
    : matrix :=
  fold_left (fun acc e => mset acc (fst (fst e)) (snd (fst e)) (snd e))
            (combine idx vals) m.

(** [np.argmax] of a one-dimensional array: the first position of the
    largest value. *)
Fixpoint argmax_from (best : nat) (bv : Q) (k : nat) (l : list Q) : nat :=
  match l with
  | [] => best
  | x :: l' =>
      if Qltb bv x then argmax_from k x (S k) l'
      else argmax_from best bv (S k) l'
  end.

Definition argmax (l : list Q) : nat :=
  match l with
  | [] => O
  | x :: l' => argmax_from O x 1 l'
  end.

Definition column (m : matrix) (j : nat) : list Q :=
  map (fun row => nth j row 0) m.

(** [np.argmax(m, axis=0)] on an array with a row. *)
Definition argmax_axis0 (m : matrix) : list nat :=
  map (fun j => argmax (column m j)) (seq 0 (ncols m)).

Definition win_len : Z := 4096.
Definition max_thresh : Q := 1 # 10.
Definition eps : Q := 1 # 10000000.

(** Line 33, [shift[shift < eps] = eps]. *)
Definition floor_eps (d : Q) : Q := if Qltb d eps then eps else d.

(** Lines 30-37, on the spectrogram. *)
Definition shift_two (spec : matrix) : matrix :=
  mmap2 Qminus (skipn 2 spec) (firstn (length spec - 2) spec).

Definition average (spec : matrix) : matrix :=
  mmap (fun d => d * (1 # 2)) (shift_two spec).

Definition shift_inner (spec : matrix) : matrix :=
  let shift :=
    mmap (fun d => 2 * d)
         (mmap2 Qminus (firstn (length spec - 2) (skipn 1 spec))
                (shift_two spec)) in
  let shift := mmap floor_eps shift in
  mmap2 Qdiv (average spec) shift.

Definition avg_padded (spec : matrix) : matrix :=
  pad_zero (ncols spec) (average spec).

Definition shift_padded (spec : matrix) : matrix :=
  pad_zero (ncols spec) (shift_inner spec).

Definition dskew (spec : matrix) : matrix :=
  mmap2 (fun a s => (1 # 2) * a * s) (avg_padded spec) (shift_padded spec).

(** Lines 45-49: the values stored for the position [(b, j)]. *)
Definition peak_frequency (spec : matrix) (sample_rate : Q) (b j : nat) : Q :=
  (inject_Z (Z.of_nat b) + mget (shift_padded spec) b j)
  * sample_rate / inject_Z win_len.

Definition peak_magnitude (spec : matrix) (b j : nat) : Q :=
  mget spec b j + mget (dskew spec) b j.

(** Lines 40-49: the two arrays filled at the peaks. *)
Definition pitch_table (spec : matrix) (sample_rate : Q)
    (idx : list (nat * nat)) : matrix :=
  scatter (mmap (fun _ => 0) spec) idx
    (map (fun e => peak_frequency spec sample_rate (fst e) (snd e)) idx).

Definition magnitude_table (spec : matrix) (idx : list (nat * nat)) : matrix :=
  scatter (mmap (fun _ => 0) spec) idx
    (map (fun e => peak_magnitude spec (fst e) (snd e)) idx).

(** Lines 26-50, from the spectrogram on. *)
Definition parabolic_of_spec (spec : matrix) (sample_rate : Q)
    : result matrix :=
  mask <- column_wise_local_max spec max_thresh ;;
  let idx := argwhere mask in
  let pitches := pitch_table spec sample_rate idx in
  let magnitudes := magnitude_table spec idx in
  Ok (map (fun a => nth a pitches []) (argmax_axis0 magnitudes)).

Section Parabolic.

(** [stft_mag] and [freqs_of_fft] are defined in util.py. *)
Variable stft_mag : list Q -> Z -> Q -> matrix.
Variable freqs_of_fft : Q -> Z -> list Q.

(** The function receives the caller's array and returns; the first
    component is the content of that array after the call, the second what
    the call returns or raises.  The array is taken to hold doubles (on an
    integer array line 25 raises before anything is written). *)
Definition detect_pitch_parabolic (signal : list Q) (fs : Q)
    : list Q * result matrix :=
  let sample_rate := fs in
  let hop_size := inject_Z win_len / 4 in
  let signal := map (fun x => x - mean signal) signal in
  let spec := stft_mag signal win_len hop_size in
  let fft_freqs := freqs_of_fft sample_rate win_len in
  (signal, parabolic_of_spec spec sample_rate).

End Parabolic.

(** A spectrogram of [nb] bins and [nt] frames (section 3): a rectangular
    grid of non-negative magnitudes. *)
Definition shape {A : Type} (nb nt : nat) (m : list (list A)) : Prop :=
  length m = nb /\ Forall (fun r => length r = nt) m.

Definition spectrogram (nb nt : nat) (m : matrix) : Prop :=
  shape nb nt m /\ Forall (Forall (fun v => 0 <= v)) m.

(** [k] is an interior strict local maximum of the curve [f]. *)
Definition interior_max (f : list Q) (k : nat) : Prop :=
  (1 <= k)%nat /\ (k + 1 < length f)%nat
  /\ nth (k - 1) f 0 < nth k f 0 /\ nth (k + 1) f 0 < nth k f 0.

(** ** Reading of section 4.4 (c)-(d) *)



(** The position [e] lies inside the array [m]. *)
Definition inside (m : matrix) (e : nat * nat) : Prop :=
  (fst e < length m)%nat /\ (snd e < length (nth (fst e) m []))%nat.

(** ** Reading of section 4.2 *)

(** The largest magnitude of frame [j]. *)
Definition column_max (x : matrix) (j : nat) : Q :=
  match column x j with
  | [] => 0
  | v :: vs => fold_left Qmax vs v
  end.

(** The neighbours of bin [b] in frame [j], the edge rows seeing their own
    value repeated. *)
Definition bin_below (x : matrix) (b j : nat) : Q :=
  if (b =? 0)%nat then mget x b j else mget x (b - 1) j.

Definition bin_above (x : matrix) (b j : nat) : Q :=
  if (b + 1 <? length x)%nat then mget x (b + 1) j else mget x b j.

(** "retain only bins whose magnitude exceeds relativeThreshold * columnMax
    AND are a strict local maximum versus the bin below and a non-strict
    local maximum versus the bin above". *)
Definition column_peak (x : matrix) (thresh : Q) (b j : nat) : Prop :=
  thresh * column_max x j < mget x b j
  /\ bin_below x b j < mget x b j
  /\ bin_above x b j <= mget x b j.


(** ** Concrete inputs *)

(** Pairs with both components in lowest terms. *)
Definition reduced (l : list (Q * Q)) : list (Q * Q) :=
  map (fun p => (Qred (fst p), Qred (snd p))) l.

Module Examples.

(** Two windows of eight samples, mean zero. *)
Definition two_windows : list Q :=
  [2; 1; -2; -2; 0; 1; -2; 1; -1; 1; -1; -1; 1; 1; -1; 2].

(** Three windows of seven samples, mean zero; the first has no peak. *)
Definition three_windows : list Q :=
  [1; 2; -1; 0; -2; -2; 1; 2; 1; 1; 1; -1; 0; 2; -1; -1; 1; -1; -1; -1; -1].

(** Two windows of six samples, mean zero; the first has no peak. *)
Definition silent_start : list Q :=
  [0; -1; -1; -2; -1; 0; 2; 0; 1; 0; 2; 0].

(** A strictly rising segment whose autocorrelation, 348, 155, 76, -41,
    -117, -115, -132, turns upward once, at lag 5. *)
Definition rising : list Q := [-11; -5; -4; -1; 4; 5; 12].

(** A segment whose autocorrelation is 50, 0, 16, 0, 33, 0, 8, 0, 16. *)
Definition comb : list Q := [4; 0; 1; 0; 4; 0; 1; 0; 4].

(** A spectrogram of five bins and two frames, and its peak mask. *)
Definition grid : matrix := [[0; 1]; [3; 0]; [1; 0]; [4; 0]; [2; 0]].

Definition grid_mask : list (list bool) :=
  [[false; false]; [true; false]; [false; false]; [true; false];
   [false; false]].

(** An all-zero spectrogram of three bins and two frames. *)
Definition flat : matrix := [[0; 0]; [0; 0]; [0; 0]].

(** Two bins, one frame: the larger magnitude sits in bin 0. *)
Definition low_heavy : matrix := [[5]; [1]].

End Examples.

(** ** Notions used to describe what the tracking loop returns *)

(** The offsets the loop of line 101 visits, for a positive window. *)
Definition window_starts (wave : list Q) (window_len : Z) : list Z :=
  range_from (length wave) 0 (Z.of_nat (length wave)) window_len.

(** [l1] is [l2] with some entries left out, the order kept. *)
Inductive subseq {A : Type} : list A -> list A -> Prop :=
| subseq_nil : subseq [] []
| subseq_skip x l1 l2 : subseq l1 l2 -> subseq l1 (x :: l2)
| subseq_keep x l1 l2 : subseq l1 l2 -> subseq (x :: l1) (x :: l2).

(** Each entry's frequency is at least [thresh] away from that of the entry
    before it. *)
Fixpoint spaced (thresh : Q) (l : list (Q * Q)) : Prop :=
  match l with
  | a :: ((b :: _) as t) =>
      thresh <= Qabs (snd b - snd a) /\ spaced thresh t
  | _ => True
  end.

(** The sum of the products of samples [k] apart. *)
Definition lag_sum (s : list Q) (k : nat) : Q :=
  fold_right Qplus 0
    (map (fun i => nth i s 0
                   * (if (k <=? i)%nat then nth (i - k) s 0 else 0))
         (seq 0 (length s))).

(** The contour entry [e] belongs to the window at offset [i]: it carries
    the time [i/fs] and the first or the second candidate of that window. *)
Definition stamped (fs : Q) (cands_of : Z -> list Q) (i : Z) (e : Q * Q)
    : Prop :=
  fst e = inject_Z i / fs
  /\ (snd e = nth 0 (cands_of i) 0 \/ snd e = nth 1 (cands_of i) 0).

(** * Part II: lemmas and theorems *)

(** ** Comparisons on rationals *)

Module NumFacts.

Lemma Qltb_lt x y : Qltb x y = true <-> x < y.
Proof.
  unfold Qltb. rewrite negb_true_iff.
  destruct (Qle_bool y x) eqn:E.
  - apply Qle_bool_iff in E. split; [discriminate | intros H; lra].
  - split; [intros _ | reflexivity].
    destruct (Qlt_le_dec x y) as [H | H]; [exact H |].
    apply Qle_bool_iff in H. congruence.
Qed.

Lemma Qltb_ge x y : Qltb x y = false <-> y <= x.
Proof.
  unfold Qltb. rewrite negb_false_iff. apply Qle_bool_iff.
Qed.

Lemma Qgtb_gt x y : Qgtb x y = true <-> y < x.
Proof. apply Qltb_lt. Qed.

Lemma Qgeb_ge x y : Qgeb x y = true <-> y <= x.
Proof. apply Qle_bool_iff. Qed.

Lemma Qgeb_lt x y : Qgeb x y = false <-> x < y.
Proof.
  unfold Qgeb. destruct (Qle_bool y x) eqn:E.
  - apply Qle_bool_iff in E. split; [discriminate | intros H; lra].
  - split; [intros _ | reflexivity].
    destruct (Qlt_le_dec x y) as [H | H]; [exact H |].
    apply Qle_bool_iff in H. congruence.
Qed.

Lemma Qeq_bool_false x y : Qeq_bool x y = false <-> ~ x == y.
Proof.
  split.
  - intros E H. apply Qeq_bool_iff in H. congruence.
  - intros H. destruct (Qeq_bool x y) eqn:E; [| reflexivity].
    apply Qeq_bool_iff in E. contradiction.
Qed.

End NumFacts.
Import NumFacts.

(** ** Facts about the tracking loop *)

Section TrackingFacts.

Variable clean_audio : list Q -> list Q.
Variable find_peaks : list Q -> list nat.
Variable parabolic_interp : list Q -> list nat -> list Q * list Q.

Local Abbreviation cands := (candidates find_peaks parabolic_interp).
Local Abbreviation run_loop := (loop find_peaks parabolic_interp).
Local Abbreviation run :=
  (detect_pitches clean_audio find_peaks parabolic_interp).

Lemma last_cons_default {A} (l : list A) (a d : A) :
  last (a :: l) d = last l a.
Proof.
  revert a d. induction l as [| b l IH]; intros a d; [reflexivity |].
  change (last (a :: b :: l) d) with (last (b :: l) d).
  rewrite (IH b d). symmetry. apply (IH b a).
Qed.

Lemma last_pitch_of_cons st p ps :
  pitches st = p :: ps -> last_pitch_of st = Ok (snd (last (pitches st) (0, 0))).
Proof.
  intros E. unfold last_pitch_of. rewrite E.
  now rewrite last_cons_default.
Qed.

Lemma body_empty fs thresh i st : body fs thresh i [] st = Ok st.
Proof. reflexivity. Qed.

Lemma float_div_ok i fs : ~ fs == 0 -> float_div i fs = Ok (inject_Z i / fs).
Proof.
  intros H. unfold float_div.
  apply Qeq_bool_false in H. now rewrite H.
Qed.

(** What one iteration does on a window that has candidates. *)
Lemma body_nonempty fs thresh i pp st p ps :
  ~ fs == 0 -> pp <> [] -> pitches st = p :: ps ->
  let last_pitch := snd (last (pitches st) (0, 0)) in
  let pitch := choose_pitch i pp last_pitch in
  let entry := (inject_Z i / fs, pitch) in
  body fs thresh i pp st =
  Ok {| pitches := if Qgeb (Qabs (pitch - last_pitch)) thresh
                   then pitches st ++ [entry] else pitches st;
        all_pitches := all_pitches st ++ [entry] |}.
Proof.
  intros Hfs Hpp E. cbn zeta. unfold body.
  destruct pp as [| c pp']; [contradiction |].
  cbn [length Nat.eqb negb].
  rewrite (last_pitch_of_cons st p ps E). cbn [bind].
  rewrite (float_div_ok i fs Hfs). cbn [bind].
  now destruct (Qgeb _ thresh).
Qed.

Lemma body_sentinel fs thresh i pp st st' :
  sentinel_headed st -> body fs thresh i pp st = Ok st' -> sentinel_headed st'.
Proof.
  intros [ev E] H. unfold body in H.
  destruct (negb (length pp =? 0)%nat); [| now inversion H; subst; exists ev].
  rewrite (last_pitch_of_cons st _ _ E) in H. cbn [bind] in H.
  destruct (float_div i fs) as [t | e]; cbn [bind] in H; [| discriminate].
  destruct (Qgeb _ thresh); inversion H; subst; unfold sentinel_headed; cbn.
  - rewrite E. cbn [app]. eexists. reflexivity.
  - now exists ev.
Qed.

Lemma loop_sentinel fs thresh snd w starts st st' :
  sentinel_headed st -> run_loop fs thresh snd w starts st = Ok st' ->
  sentinel_headed st'.
Proof.
  revert st. induction starts as [| i rest IH]; intros st Hst H; cbn in H.
  - now inversion H; subst.
  - destruct (body fs thresh i (cands fs snd w i) st) as [st1 | e] eqn:Eb;
      cbn [bind] in H; [| discriminate].
    eapply IH; [| exact H]. eapply body_sentinel; eauto.
Qed.

Lemma init_sentinel : sentinel_headed init.
Proof. now exists []. Qed.

(** With a non-zero sample rate an iteration cannot fail. *)
Lemma body_total fs thresh i pp st :
  ~ fs == 0 -> sentinel_headed st -> exists st', body fs thresh i pp st = Ok st'.
Proof.
  intros Hfs [ev E]. destruct pp as [| c pp'].
  - now exists st.
  - eexists. eapply body_nonempty; [exact Hfs | discriminate | exact E].
Qed.

Lemma loop_total fs thresh snd w starts st :
  ~ fs == 0 -> sentinel_headed st -> exists st', run_loop fs thresh snd w starts st = Ok st'.
Proof.
  intros Hfs. revert st. induction starts as [| i rest IH]; intros st Hst; cbn.
  - now exists st.
  - destruct (body_total fs thresh i (cands fs snd w i) st Hfs Hst) as [st1 E1].
    rewrite E1. cbn [bind]. apply IH. eapply body_sentinel; eauto.
Qed.

Lemma loop_app fs thresh snd w l1 l2 st :
  run_loop fs thresh snd w (l1 ++ l2) st =
  (st1 <- run_loop fs thresh snd w l1 st ;; run_loop fs thresh snd w l2 st1).
Proof.
  revert st. induction l1 as [| i l1 IH]; intros st; cbn; [reflexivity |].
  destruct (body fs thresh i (cands fs snd w i) st); cbn [bind]; auto.
Qed.

(** Windows without candidates leave the accumulators alone. *)
Lemma loop_silent fs thresh snd w pre st :
  (forall j, In j pre -> cands fs snd w j = []) ->
  run_loop fs thresh snd w pre st = Ok st.
Proof.
  induction pre as [| j pre IH]; intros H; cbn; [reflexivity |].
  rewrite (H j (or_introl eq_refl)). rewrite body_empty. cbn [bind].
  apply IH. intros k Hk. apply H. now right.
Qed.

(** No path of the loop raises an assertion failure. *)
Lemma body_not_assert fs thresh i pp st :
  body fs thresh i pp st <> Raise AssertionError.
Proof.
  unfold body. destruct (negb _); [| discriminate].
  unfold last_pitch_of. destruct (pitches st); cbn [bind]; [discriminate |].
  unfold float_div. destruct (Qeq_bool fs 0); cbn [bind]; [discriminate |].
  destruct (Qgeb _ _); cbn [bind]; discriminate.
Qed.

Lemma loop_not_assert fs thresh snd w starts st :
  run_loop fs thresh snd w starts st <> Raise AssertionError.
Proof.
  revert st. induction starts as [| i rest IH]; intros st; cbn; [discriminate |].
  destruct (body fs thresh i (cands fs snd w i) st) as [st1 | e] eqn:E;
    cbn [bind]; [apply IH |].
  intros H. inversion H; subst. exact (body_not_assert _ _ _ _ _ E).
Qed.

End TrackingFacts.

(** ** [range(0, stop, step)] is enumerated in full *)

Lemma range_from_complete (stop step : Z) :
  (0 < step)%Z ->
  forall fuel i, (stop - i <= Z.of_nat fuel)%Z ->
  forall k, In k (range_from fuel i stop step)
            <-> exists n, (0 <= n /\ k = i + n * step /\ k < stop)%Z.
Proof.
  intros Hs. induction fuel as [| fuel IH]; intros i Hf k; cbn [range_from].
  - split; [intros [] |]. intros (n & Hn & -> & Hk). nia.
  - destruct (i <? stop)%Z eqn:E.
    + apply Z.ltb_lt in E. cbn [In]. rewrite (IH (i + step)%Z) by lia. split.
      * intros [<- | (n & Hn & -> & Hk)].
        -- exists 0%Z. lia.
        -- exists (n + 1)%Z. lia.
      * intros (n & Hn & -> & Hk).
        destruct (Z.eq_dec n 0) as [-> | N]; [left; lia |].
        right. exists (n - 1)%Z. lia.
    + apply Z.ltb_ge in E. split; [intros [] |].
      intros (n & Hn & -> & Hk). nia.
Qed.

Lemma range0_spec (stop step : Z) :
  (0 < step)%Z ->
  exists starts,
    range0 stop step = Ok starts
    /\ forall k, In k starts
                 <-> exists n, (0 <= n /\ k = n * step /\ k < stop)%Z.
Proof.
  intros Hs. unfold range0.
  replace (step =? 0)%Z with false by (symmetry; apply Z.eqb_neq; lia).
  replace (step <? 0)%Z with false by (symmetry; apply Z.ltb_ge; lia).
  eexists. split; [reflexivity |]. intros k.
  rewrite (range_from_complete stop step Hs (Z.to_nat stop) 0) by lia.
  split; intros (n & H); exists n; lia.
Qed.

(** ** The tracking loop: events, look-back, silent windows *)

Section TrackingTheorems.

Variable clean_audio : list Q -> list Q.
Variable find_peaks : list Q -> list nat.
Variable parabolic_interp : list Q -> list nat -> list Q * list Q.

Local Abbreviation cands := (candidates find_peaks parabolic_interp).
Local Abbreviation run_loop := (loop find_peaks parabolic_interp).
Local Abbreviation run :=
  (detect_pitches clean_audio find_peaks parabolic_interp).

(** C5.  With a non-zero sample rate: the loop starts from the event list
    [(0, 0)]; when it has run over the windows [pre] and reached a state,
    running it over one more window, at offset [i], that has candidates
    appends [(i/fs, pitch)] to the contour, and appends the same pair to
    the event list exactly when [|pitch - lastPitchRetained| >= thresh],
    where [lastPitchRetained] is the frequency of the last entry of the
    event list; a window without candidates changes nothing; and what the
    function returns is the event list so accumulated over the windows of
    [range], without its first entry. *)
Theorem event_gate (fs thresh : Q) (wave : list Q) (w : Z) :
  ~ fs == 0 ->
  (forall pre st i,
     run_loop fs thresh wave w pre init = Ok st ->
     cands fs wave w i <> [] ->
     let last_retained := snd (last (pitches st) (0, 0)) in
     let pitch := choose_pitch i (cands fs wave w i) last_retained in
     let entry := (inject_Z i / fs, pitch) in
     exists st',
       run_loop fs thresh wave w (pre ++ [i]) init = Ok st' /\
       all_pitches st' = all_pitches st ++ [entry] /\
       (thresh <= Qabs (pitch - last_retained) ->
        pitches st' = pitches st ++ [entry]) /\
       (~ thresh <= Qabs (pitch - last_retained) ->
        pitches st' = pitches st))
  /\ (forall pre st i,
        run_loop fs thresh wave w pre init = Ok st ->
        cands fs wave w i = [] ->
        run_loop fs thresh wave w (pre ++ [i]) init = Ok st)
  /\ run_loop fs thresh wave w [] init = Ok init
  /\ pitches init = [(0, 0)]
  /\ (forall raw, w <> 0%Z ->
      exists st,
        (exists starts,
           range0 (Z.of_nat (length (clean_audio raw))) w = Ok starts /\
           run_loop fs thresh (clean_audio raw) w starts init = Ok st) /\
        pitches st = (0, 0) :: tl (pitches st) /\
        run fs (mono raw) w thresh
        = Ok (tl (pitches st), all_pitches st)).
Proof.
  intros Hfs. split; [| split; [| split; [reflexivity | split; [reflexivity |]]]].
  - intros pre st i Hrun Hpp. cbn zeta.
    destruct (loop_sentinel find_peaks parabolic_interp fs thresh wave w pre
                init st init_sentinel Hrun) as [ev E].
    eexists. split.
    + rewrite loop_app, Hrun. cbn [bind loop].
      rewrite (body_nonempty fs thresh i _ st _ _ Hfs Hpp E).
      cbn [bind]. reflexivity.
    + cbn [all_pitches pitches]. split; [reflexivity |]. split.
      * intros H. apply Qgeb_ge in H. now rewrite H.
      * intros H. destruct (Qgeb _ thresh) eqn:G; [| reflexivity].
        apply Qgeb_ge in G. contradiction.
  - intros pre st i Hrun Hpp. rewrite loop_app, Hrun. cbn [bind loop].
    rewrite Hpp, body_empty. reflexivity.
  - intros raw Hw. unfold detect_pitches.
    cbn [mono ndim samples Nat.eqb negb].
    assert (Hr : exists starts,
               range0 (Z.of_nat (length (clean_audio raw))) w = Ok starts).
    { unfold range0. apply Z.eqb_neq in Hw. rewrite Hw.
      destruct (w <? 0)%Z; eexists; reflexivity. }
    destruct Hr as [starts Hr].
    destruct (loop_total find_peaks parabolic_interp fs thresh
                (clean_audio raw) w starts init Hfs init_sentinel) as [st Hst].
    exists st. split; [exists starts; now split |].
    destruct (loop_sentinel find_peaks parabolic_interp fs thresh _ w starts
                init st init_sentinel Hst) as [ev E].
    split; [now rewrite E |].
    rewrite Hr. cbn [bind]. rewrite Hst. reflexivity.
Qed.


(** C10, as the code has it.  The octave test is switched off at offset 0
    only.  When the windows before the one at offset [i <> 0] all come
    without candidates and that window has at least two, the test reads
    the dummy 0 Hz as last pitch: if [|c0 - 0| > |0 - c1|] and
    [|c1/c0 - 2| < 5], the second candidate [c1] is the pitch recorded. *)
Theorem octave_test_after_silence (fs thresh : Q) (wave : list Q) (w : Z)
    (pre : list Z) (i : Z) :
  let pp := cands fs wave w i in
  let c0 := nth 0 pp 0 in
  let c1 := nth 1 pp 0 in
  ~ fs == 0 ->
  (forall j, In j pre -> cands fs wave w j = []) ->
  i <> 0%Z ->
  (2 <= length pp)%nat ->
  Qabs (0 - c1) < Qabs (c0 - 0) ->
  Qabs (c1 / c0 - 2) < 5 ->
  (forall cands last_pitch, choose_pitch 0 cands last_pitch = nth 0 cands 0)
  /\ (exists st, run_loop fs thresh wave w pre init = Ok st
                 /\ last_pitch_of st = Ok 0)
  /\ exists st',
       run_loop fs thresh wave w (pre ++ [i]) init = Ok st' /\
       all_pitches st' = [(inject_Z i / fs, c1)].
Proof.
  intros pp c0 c1 Hfs Hsil Hi Hlen Hd Hr.
  pose proof (loop_silent find_peaks parabolic_interp fs thresh wave w pre
                init Hsil) as Hpre.
  assert (Hch : choose_pitch i pp 0 = c1).
  { unfold choose_pitch. fold c0 c1.
    assert (H1 : (1 <? length pp)%nat = true) by (apply Nat.ltb_lt; lia).
    assert (H2 : negb (i =? 0)%Z = true)
      by (apply negb_true_iff; now apply Z.eqb_neq).
    assert (H3 : Qgtb (Qabs (c0 - 0)) (Qabs (0 - c1)) = true)
      by now apply Qgtb_gt.
    assert (H4 : near_octave c1 c0 = true).
    { unfold near_octave.
      assert (N : ~ c0 == 0).
      { intros Z0. assert (A : Qabs (c0 - 0) == 0).
        { rewrite Z0. reflexivity. }
        pose proof (Qabs_nonneg (0 - c1)). lra. }
      apply Qeq_bool_false in N. rewrite N. now apply Qltb_lt. }
    now rewrite H1, H2, H3, H4. }
  split; [| split].
  - intros cands lp. unfold choose_pitch.
    cbn [Z.eqb negb]. now rewrite andb_false_r.
  - exists init. now split.
  - rewrite loop_app, Hpre. cbn [bind loop].
    assert (Hpp : pp <> []) by (destruct pp; [cbn in Hlen; lia | discriminate]).
    fold pp. rewrite (body_nonempty fs thresh i pp init _ _ Hfs Hpp eq_refl).
    cbn [bind pitches init last snd all_pitches app]. rewrite Hch.
    eexists. split; reflexivity.
Qed.

(** C8, as the code has it.  The entry point stops on a failed assertion,
    before the signal is cleaned and before any window is read, exactly when
    the array does not have one dimension.  An empty one-dimensional array
    is let through: when cleaning leaves it empty no window is read, and the
    call returns two empty lists for every window length other than 0 (for
    0 it is [range] that fails, as on any other signal). *)
Theorem assertion_iff_not_mono (fs : Q) (buf : ndarray) (w : Z) (thresh : Q) :
  (run fs buf w thresh = Raise AssertionError <-> ndim buf <> 1%nat)
  /\ (ndim buf = 1%nat -> clean_audio (samples buf) = [] ->
      (w <> 0%Z -> run fs buf w thresh = Ok ([], []))
      /\ (w = 0%Z -> run fs buf w thresh = Raise ValueError)).
Proof.
  split.
  {
    unfold run, detect_pitches.
    destruct (ndim buf =? 1)%nat eqn:E; cbn [negb].
    - apply Nat.eqb_eq in E. split; [| contradiction].
      intros H. exfalso.
      destruct (range0 _ w) as [starts | e] eqn:R; cbn [bind] in H.
      + destruct (run_loop fs thresh (clean_audio (samples buf)) w starts init)
          as [st | e] eqn:L; cbn [bind] in H; [discriminate |].
        inversion H; subst.
        exact (loop_not_assert find_peaks parabolic_interp _ _ _ _ _ _ L).
      + unfold range0 in R. destruct (w =? 0)%Z; [inversion R; subst; discriminate |].
        destruct (w <? 0)%Z; discriminate.
    - apply Nat.eqb_neq in E. now split.
  }
  intros Hd He. unfold run, detect_pitches. rewrite Hd, He.
  cbn [Nat.eqb negb length Z.of_nat]. unfold range0. split.
  - intros Hw. apply Z.eqb_neq in Hw. rewrite Hw.
    destruct (w <? 0)%Z; reflexivity.
  - intros ->. reflexivity.
Qed.

End TrackingTheorems.

(** ** Peaks of the autocorrelation *)

Section PeakFacts.

Lemma is_peak_spec f k : Util.is_peak f k = true <-> interior_max f k.
Proof.
  unfold Util.is_peak, interior_max.
  rewrite !andb_true_iff, Nat.leb_le, Nat.ltb_lt, !Qltb_lt. tauto.
Qed.

Lemma find_peaks_spec f k : In k (Util.find_peaks f) <-> interior_max f k.
Proof.
  unfold Util.find_peaks. rewrite filter_In, in_seq, is_peak_spec.
  unfold interior_max. split; [tauto |]. intros H. split; [lia | exact H].
Qed.

Lemma find_peaks_none f :
  (forall k, ~ interior_max f k) -> Util.find_peaks f = [].
Proof.
  intros H. destruct (Util.find_peaks f) as [| k l] eqn:E; [reflexivity |].
  exfalso. apply (H k). apply find_peaks_spec. rewrite E. now left.
Qed.

Lemma seq_sorted a n : StronglySorted lt (seq a n).
Proof.
  revert a. induction n as [| n IH]; intros a; cbn; constructor.
  - apply IH.
  - apply Forall_forall. intros x Hx. apply in_seq in Hx. lia.
Qed.

Lemma filter_sorted (p : nat -> bool) l :
  StronglySorted lt l -> StronglySorted lt (filter p l).
Proof.
  induction 1 as [| a l Hs IH Ha]; cbn; [constructor |].
  destruct (p a); [| exact IH].
  constructor; [exact IH |].
  apply Forall_forall. intros x Hx. apply filter_In in Hx.
  rewrite Forall_forall in Ha. now apply Ha.
Qed.

Lemma find_peaks_sorted f : StronglySorted lt (Util.find_peaks f).
Proof. apply filter_sorted, seq_sorted. Qed.

End PeakFacts.

(** When the folded autocorrelation of a segment has no interior
    strict local maximum, [detect_pitch_autocorr] returns the empty
    sequence, and a window holding such a segment leaves both the contour
    and the event list as they were. *)
Theorem no_peak_no_pitch
    (parabolic_interp : list Q -> list nat -> list Q * list Q)
    (segment : list Q) (fs : Q) :
  (forall k, ~ interior_max (autocorr segment) k) ->
  detect_pitch_autocorr Util.find_peaks parabolic_interp segment fs = []
  /\ (forall thresh i st,
        body fs thresh i
          (detect_pitch_autocorr Util.find_peaks parabolic_interp segment fs)
          st = Ok st)
  /\ (forall thresh wave w i st,
        window wave w i = segment ->
        loop Util.find_peaks parabolic_interp fs thresh wave w [i] st = Ok st).
Proof.
  intros H.
  assert (E : detect_pitch_autocorr Util.find_peaks parabolic_interp segment fs
              = []).
  { unfold detect_pitch_autocorr. now rewrite (find_peaks_none _ H). }
  split; [exact E |]. split.
  - intros thresh i st. now rewrite E.
  - intros thresh wave w i st Hw. cbn [loop]. unfold candidates.
    rewrite Hw, E. reflexivity.
Qed.

(** The three segments the spec names: all zero, empty, rising. *)
Lemma zeros_have_no_peak k : ~ interior_max (autocorr [0; 0; 0; 0]) k.
Proof.
  intros (H1 & H2 & H3 & _). cbn in H2.
  assert (C : (k = 1 \/ k = 2)%nat) by lia.
  destruct C; subst; vm_compute in H3; discriminate.
Qed.

Lemma empty_has_no_peak k : ~ interior_max (autocorr []) k.
Proof. intros (_ & H2 & _). cbn in H2. lia. Qed.

Lemma rising_has_no_peak k : ~ interior_max (autocorr [1; 2; 3]) k.
Proof.
  intros (H1 & H2 & H3 & _). cbn in H2.
  assert (C : (k = 1)%nat) by lia.
  subst; vm_compute in H3; discriminate.
Qed.

(** Being monotonic does not by itself rule a peak out: the autocorrelation
    of [Examples.rising] has one, and a candidate comes back. *)
Lemma rising_segment_with_peak :
  map Qred (autocorr Examples.rising) = [348; 155; 76; -41; -117; -115; -132]
  /\ Util.find_peaks (autocorr Examples.rising) = [5%nat]
  /\ length (detect_pitch_autocorr Util.find_peaks Util.parabolic_interp
               Examples.rising 44100) = 1%nat.
Proof. vm_compute. repeat split. Qed.

Lemma no_peak_no_pitch_witness :
  detect_pitch_autocorr Util.find_peaks Util.parabolic_interp [0; 0; 0; 0] 44100
  = []
  /\ detect_pitch_autocorr Util.find_peaks Util.parabolic_interp [] 44100 = []
  /\ detect_pitch_autocorr Util.find_peaks Util.parabolic_interp [1; 2; 3] 44100
     = [].
Proof.
  split; [| split].
  - exact (proj1 (no_peak_no_pitch Util.parabolic_interp [0; 0; 0; 0] 44100
                    zeros_have_no_peak)).
  - exact (proj1 (no_peak_no_pitch Util.parabolic_interp [] 44100
                    empty_has_no_peak)).
  - exact (proj1 (no_peak_no_pitch Util.parabolic_interp [1; 2; 3] 44100
                    rising_has_no_peak)).
Defined.

(** C6, as the code has it.  For a segment whose folded autocorrelation has
    an interior strict local maximum, [detect_pitch_autocorr] returns one
    frequency per peak, the sample rate divided by the refined lag of that
    peak, the peaks being all the interior strict local maxima taken by
    ascending lag.  (Nothing orders them by strength.) *)
Theorem candidates_by_ascending_lag (segment : list Q) (fs : Q) :
  (exists k, interior_max (autocorr segment) k) ->
  let corr := autocorr segment in
  let peaks := Util.find_peaks corr in
  detect_pitch_autocorr Util.find_peaks Util.parabolic_interp segment fs
  = map (fun k => fs / Util.interp_pos corr k) peaks
  /\ length (detect_pitch_autocorr Util.find_peaks Util.parabolic_interp
               segment fs) = length peaks
  /\ peaks <> []
  /\ StronglySorted lt peaks
  /\ (forall k, In k peaks <-> interior_max corr k).
Proof.
  intros [k Hk] corr peaks.
  assert (Hin : In k peaks) by now apply find_peaks_spec.
  assert (Hne : peaks <> []) by (intros E; rewrite E in Hin; exact Hin).
  assert (E : detect_pitch_autocorr Util.find_peaks Util.parabolic_interp
                segment fs
              = map (fun k => fs / Util.interp_pos corr k) peaks).
  { unfold detect_pitch_autocorr. fold corr. fold peaks.
    destruct peaks as [| p ps] eqn:Ep; [contradiction |].
    cbn [length Nat.eqb negb Util.parabolic_interp fst map].
    now rewrite map_map. }
  split; [exact E |]. split; [rewrite E; apply length_map |].
  split; [exact Hne |]. split; [apply find_peaks_sorted |].
  intros j. apply find_peaks_spec.
Qed.

(** ** Runs on concrete signals *)

Module Runs.

Local Abbreviation cands := (candidates Util.find_peaks Util.parabolic_interp).
Local Abbreviation run_loop := (loop Util.find_peaks Util.parabolic_interp).
Local Abbreviation run :=
  (detect_pitches Util.clean_audio Util.find_peaks Util.parabolic_interp).



Lemma event_gate_witness :
  let wave := Util.clean_audio Examples.three_windows in
  (exists st',
     run_loop 60 5 wave 7 ([0%Z] ++ [7%Z]) init = Ok st'
     /\ reduced (all_pitches st') = [(7 # 60, 20)]
     /\ reduced (pitches st') = [(0, 0); (7 # 60, 20)])
  /\ exists st,
       reduced (tl (pitches st)) = [(7 # 60, 20)]
       /\ run 60 (mono Examples.three_windows) 7 5
          = Ok (tl (pitches st), all_pitches st).
Proof.
  cbn zeta.
  assert (Hfs : ~ 60 == 0) by (intros H; discriminate H).
  destruct (event_gate Util.clean_audio Util.find_peaks Util.parabolic_interp
              60 5 (Util.clean_audio Examples.three_windows) 7 Hfs)
    as (Step & _ & _ & _ & Ret).
  split.
  - assert (Hpre : run_loop 60 5 (Util.clean_audio Examples.three_windows) 7
                     [0%Z] init = Ok init) by (vm_compute; reflexivity).
    assert (Hc : cands 60 (Util.clean_audio Examples.three_windows) 7 7 <> [])
      by (vm_compute; discriminate).
    destruct (Step [0%Z] init 7%Z Hpre Hc) as (st' & R & A & G & _).
    exists st'. split; [exact R |]. split.
    + rewrite A. vm_compute. reflexivity.
    + rewrite G; [vm_compute; reflexivity |]. vm_compute. discriminate.
  - assert (Hw : 7%Z <> 0%Z) by discriminate.
    destruct (Ret Examples.three_windows Hw) as (st & (starts & Hr & Hl) & E & D).
    exists st. split; [| exact D].
    assert (C : match run 60 (mono Examples.three_windows) 7 5 with
                | Ok (events, _) => reduced events
                | Raise _ => []
                end = [(7 # 60, 20)]) by (vm_compute; reflexivity).
    rewrite D in C. exact C.
Defined.

(** C10 fails as stated.  Sample rate 60, window 7, threshold 5.  The window
    at offset 0 has no candidate; the one at offset 7 has the single
    candidate 20 Hz, which is retained; the first window with two
    candidates, at offset 14, has 20 and 12 Hz.  Both conditions of the
    claim hold against 0 Hz, yet the code reads 20 Hz as last pitch and
    keeps the first candidate. *)
Lemma octave_test_sees_retained_event :
  let wave := Util.clean_audio Examples.three_windows in
  let pp := cands 60 wave 7 14 in
  cands 60 wave 7 0 = []
  /\ map Qred (cands 60 wave 7 7) = [20]
  /\ map Qred pp = [20; 12]
  /\ Qabs (0 - nth 1 pp 0) < Qabs (nth 0 pp 0 - 0)
  /\ Qabs (nth 1 pp 0 / nth 0 pp 0 - 2) < 5
  /\ match run_loop 60 5 wave 7 [0%Z; 7%Z] init with
     | Ok st =>
         match last_pitch_of st with
         | Ok last_pitch =>
             Qred last_pitch = 20
             /\ Qred (choose_pitch 14 pp last_pitch) = 20
         | Raise _ => False
         end
     | Raise _ => False
     end
  /\ match run 60 (mono Examples.three_windows) 7 5 with
     | Ok (events, contour) =>
         reduced events = [(7 # 60, 20)]
         /\ reduced contour = [(7 # 60, 20); (7 # 30, 20)]
     | Raise _ => False
     end.
Proof. vm_compute. repeat split. Qed.

Lemma octave_test_after_silence_witness :
  let wave := Util.clean_audio Examples.silent_start in
  exists st',
    run_loop 24 5 wave 6 ([0%Z] ++ [6%Z]) init = Ok st'
    /\ all_pitches st' = [(inject_Z 6 / 24, nth 1 (cands 24 wave 6 6) 0)]
    /\ Qred (nth 0 (cands 24 wave 6 6) 0) = 12
    /\ Qred (nth 1 (cands 24 wave 6 6) 0) = 6.
Proof.
  cbn zeta.
  assert (Hfs : ~ 24 == 0) by (intros H; discriminate H).
  assert (Hsil : forall j, In j [0%Z] ->
                   cands 24 (Util.clean_audio Examples.silent_start) 6 j = []).
  { intros j [<- | []]. vm_compute. reflexivity. }
  assert (Hi : 6%Z <> 0%Z) by discriminate.
  assert (Hlen : (2 <= length (cands 24 (Util.clean_audio Examples.silent_start)
                                 6 6))%nat).
  { vm_compute. apply le_n. }
  destruct (octave_test_after_silence Util.find_peaks Util.parabolic_interp
              24 5 (Util.clean_audio Examples.silent_start) 6 [0%Z] 6
              Hfs Hsil Hi Hlen) as (_ & _ & st' & R & A).
  - vm_compute. reflexivity.
  - vm_compute. reflexivity.
  - exists st'. split; [exact R |]. split; [exact A |].
    split; vm_compute; reflexivity.
Defined.

(** C8 fails as stated: an empty one-dimensional array is not rejected; the
    loop runs over no window and two empty lists come back. *)
Lemma empty_mono_is_accepted :
  ndim (mono []) = 1%nat
  /\ samples (mono []) = []
  /\ run 44100 (mono []) 2048 10 = Ok ([], []).
Proof. vm_compute. repeat split. Qed.

(** C6 fails as stated.  The autocorrelation of [comb] peaks at the lags 2,
    4 and 6 with the values 16, 33 and 8 (refined magnitudes the same); the
    candidates come back as 24, 12 and 8 Hz, by lag, the strongest peak in
    second place. *)
Lemma lag_order_is_not_strength_order :
  let corr := autocorr Examples.comb in
  let peaks := Util.find_peaks corr in
  map Qred corr = [50; 0; 16; 0; 33; 0; 8; 0; 16]
  /\ peaks = [2; 4; 6]%nat
  /\ map Qred (snd (Util.parabolic_interp corr peaks)) = [16; 33; 8]
  /\ map Qred (detect_pitch_autocorr Util.find_peaks Util.parabolic_interp
                 Examples.comb 48) = [24; 12; 8]
  /\ nth 2 corr 0 < nth 4 corr 0.
Proof. vm_compute. repeat split. Qed.

Lemma candidates_by_ascending_lag_witness :
  detect_pitch_autocorr Util.find_peaks Util.parabolic_interp Examples.comb 48
  = map (fun k => 48 / Util.interp_pos (autocorr Examples.comb) k)
        (Util.find_peaks (autocorr Examples.comb)).
Proof.
  assert (H : exists k, interior_max (autocorr Examples.comb) k).
  { exists 2%nat. unfold interior_max.
    split; [lia |]. split; [vm_compute; lia |].
    split; vm_compute; reflexivity. }
  exact (proj1 (candidates_by_ascending_lag Examples.comb 48 H)).
Defined.

End Runs.

(** ** Arrays: lengths and positions *)

Section ArrayFacts.

Context {A B C : Type}.

Lemma length_map2 (f : A -> B -> C) u v :
  length (map2 f u v) = Nat.min (length u) (length v).
Proof.
  revert v. induction u as [| x u IH]; intros [| y v]; cbn; auto.
Qed.

Lemma nth_map2 (f : A -> B -> C) u v n da db dc :
  (n < length u)%nat -> (n < length v)%nat ->
  nth n (map2 f u v) dc = f (nth n u da) (nth n v db).
Proof.
  revert v n. induction u as [| x u IH]; intros [| y v] [| n]; cbn; intros;
    try lia; auto.
  apply IH; lia.
Qed.

Lemma shape_row nb nt (m : list (list A)) b :
  shape nb nt m -> (b < nb)%nat -> length (nth b m []) = nt.
Proof.
  intros [L F] H. rewrite Forall_forall in F. apply F, nth_In. lia.
Qed.

Lemma shape_intro nb nt (m : list (list A)) :
  length m = nb ->
  (forall b, (b < nb)%nat -> length (nth b m []) = nt) ->
  shape nb nt m.
Proof.
  intros L H. split; [exact L |]. apply Forall_forall. intros r Hr.
  destruct (In_nth _ _ [] Hr) as (b & Hb & <-). apply H. lia.
Qed.

Lemma length_set_nth n (x : A) l : length (set_nth n x l) = length l.
Proof.
  revert n. induction l as [| h t IH]; intros [| n]; cbn; auto.
Qed.

Lemma nth_set_nth_same n (x d : A) l :
  (n < length l)%nat -> nth n (set_nth n x l) d = x.
Proof.
  revert n. induction l as [| h t IH]; intros [| n]; cbn; intros; try lia; auto.
  apply IH. lia.
Qed.

Lemma nth_set_nth_other n k (x d : A) l :
  n <> k -> nth k (set_nth n x l) d = nth k l d.
Proof.
  revert n k. induction l as [| h t IH]; intros [| n] [| k]; cbn; intros;
    try congruence; auto.
Qed.

End ArrayFacts.

Lemma shape_mmap2 {A B C : Type} (f : A -> B -> C) nb nt a b :
  shape nb nt a -> shape nb nt b -> shape nb nt (mmap2 f a b).
Proof.
  intros Ha Hb. apply shape_intro.
  - unfold mmap2. rewrite length_map2. destruct Ha as [-> _], Hb as [-> _]. lia.
  - intros i Hi. unfold mmap2.
    rewrite (nth_map2 _ a b i [] []);
      [| destruct Ha as [-> _]; lia | destruct Hb as [-> _]; lia].
    rewrite length_map2.
    rewrite (shape_row nb nt a i Ha Hi), (shape_row nb nt b i Hb Hi). lia.
Qed.

Lemma nth_mmap2 {A B C : Type} (f : A -> B -> C) nb nt a b i j da db dc :
  shape nb nt a -> shape nb nt b -> (i < nb)%nat -> (j < nt)%nat ->
  nth j (nth i (mmap2 f a b) []) dc
  = f (nth j (nth i a []) da) (nth j (nth i b []) db).
Proof.
  intros Ha Hb Hi Hj. unfold mmap2.
  rewrite (nth_map2 _ a b i [] []);
    [| destruct Ha as [-> _]; lia | destruct Hb as [-> _]; lia].
  apply nth_map2.
  - now rewrite (shape_row nb nt a i Ha Hi).
  - now rewrite (shape_row nb nt b i Hb Hi).
Qed.

Lemma shape_mmap {A B : Type} (f : A -> B) nb nt a :
  shape nb nt a -> shape nb nt (mmap f a).
Proof.
  intros [L F]. split; unfold mmap.
  - now rewrite length_map.
  - apply Forall_forall. intros r Hr. apply in_map_iff in Hr.
    destruct Hr as (r0 & <- & Hr0). rewrite length_map.
    rewrite Forall_forall in F. now apply F.
Qed.

Lemma nth_mmap {A B : Type} (f : A -> B) (a : list (list A)) i j da db :
  (i < length a)%nat -> (j < length (nth i a []))%nat ->
  nth j (nth i (mmap f a) []) db = f (nth j (nth i a []) da).
Proof.
  intros Hi Hj. unfold mmap.
  change (@nil B) with (map f []). rewrite map_nth.
  rewrite (nth_indep _ db (f da)); [apply map_nth | now rewrite length_map].
Qed.

Lemma shape_firstn {A : Type} n nb nt (a : list (list A)) :
  shape nb nt a -> shape (Nat.min n nb) nt (firstn n a).
Proof.
  intros [L F]. split.
  - now rewrite length_firstn, L.
  - rewrite <- (firstn_skipn n a) in F. now apply Forall_app in F.
Qed.

Lemma shape_skipn {A : Type} n nb nt (a : list (list A)) :
  shape nb nt a -> shape (nb - n) nt (skipn n a).
Proof.
  intros [L F]. split.
  - now rewrite length_skipn, L.
  - rewrite <- (firstn_skipn n a) in F. now apply Forall_app in F.
Qed.

Lemma shape_pad_zero nb nt a :
  shape nb nt a -> shape (S (S nb)) nt (pad_zero nt a).
Proof.
  intros [L F]. split; unfold pad_zero.
  - cbn. rewrite length_app, L. cbn. lia.
  - constructor; [apply repeat_length |].
    apply Forall_app. split; [exact F |].
    constructor; [apply repeat_length | constructor].
Qed.

Lemma ncols_shape {A : Type} nb nt (a : list (list A)) :
  shape nb nt a -> (0 < nb)%nat -> ncols a = nt.
Proof.
  intros [L F] H. destruct a as [| r a]; [cbn in L; lia |].
  cbn. now inversion F.
Qed.

(** ** Column maxima and the peak mask *)

Lemma last_is_nth {A : Type} (l : list A) (d : A) :
  last l d = nth (length l - 1) l d.
Proof.
  induction l as [| a l IH]; [reflexivity |].
  destruct l as [| b l]; [reflexivity |].
  change (last (a :: b :: l) d) with (last (b :: l) d). rewrite IH.
  cbn [length]. replace (S (S (length l)) - 1)%nat with (S (length l)) by lia.
  cbn [nth]. now replace (S (length l) - 1)%nat with (length l) by lia.
Qed.

Lemma fold_max_rows nt rest :
  Forall (fun r => length r = nt) rest ->
  forall r, length r = nt ->
  length (fold_left (map2 Qmax) rest r) = nt
  /\ forall j, (j < nt)%nat ->
       nth j (fold_left (map2 Qmax) rest r) 0
       = fold_left Qmax (map (fun row => nth j row 0) rest) (nth j r 0).
Proof.
  induction 1 as [| s rest Hs Hrest IH]; intros r Hr; cbn; [now split |].
  assert (L : length (map2 Qmax r s) = nt) by (rewrite length_map2; lia).
  destruct (IH _ L) as [IL IN]. split; [exact IL |].
  intros j Hj. rewrite (IN j Hj).
  now rewrite (nth_map2 Qmax r s j 0 0 0) by lia.
Qed.

Lemma np_max_axis0_spec nb nt x :
  shape nb nt x -> (0 < nb)%nat ->
  exists cm, np_max_axis0 x = Ok cm /\ length cm = nt
             /\ forall j, (j < nt)%nat -> nth j cm 0 = column_max x j.
Proof.
  intros [L F] H. destruct x as [| r rest]; [cbn in L; lia |].
  inversion F as [| ? ? Hr Hrest]; subst.
  destruct (fold_max_rows (length r) rest Hrest r eq_refl) as [IL IN].
  eexists. split; [reflexivity |]. split; [exact IL |].
  intros j Hj. rewrite (IN j Hj). reflexivity.
Qed.

Lemma fold_max_upper vs : forall v,
  v <= fold_left Qmax vs v
  /\ (forall u, In u vs -> u <= fold_left Qmax vs v)
  /\ In (fold_left Qmax vs v) (v :: vs).
Proof.
  induction vs as [| w vs IH]; intros v; cbn [fold_left].
  - split; [lra |]. split; [intros u [] | now left].
  - destruct (IH (Qmax v w)) as (I1 & I2 & I3).
    pose proof (Q.le_max_l v w). pose proof (Q.le_max_r v w).
    split; [lra |]. split.
    + intros u [<- | Hu]; [lra | now apply I2].
    + destruct I3 as [E | I3]; [| right; now right].
      rewrite <- E. unfold Qmax, GenericMinMax.gmax.
      destruct (v ?= w); [now left | right; now left | now left].
Qed.

(** [column_max] is the greatest entry of its frame. *)
Lemma column_max_greatest nb nt x j :
  shape nb nt x -> (0 < nb)%nat -> (j < nt)%nat ->
  (forall b, (b < nb)%nat -> mget x b j <= column_max x j)
  /\ exists b, (b < nb)%nat /\ column_max x j = mget x b j.
Proof.
  intros [L F] H Hj. unfold column_max, column.
  destruct x as [| r rest]; [cbn in L; lia |]. cbn [map].
  destruct (fold_max_upper (map (fun row => nth j row 0) rest) (nth j r 0))
    as (U1 & U2 & U3).
  split.
  - intros [| b] Hb; unfold mget; cbn [nth]; [exact U1 |].
    apply U2. apply in_map_iff. exists (nth b rest []). split; [reflexivity |].
    apply nth_In. cbn in L. lia.
  - change (nth j r 0 :: map (fun row => nth j row 0) rest)
      with (map (fun row => nth j row 0) (r :: rest)) in U3.
    apply in_map_iff in U3. destruct U3 as (row & E & Hrow).
    destruct (In_nth _ _ [] Hrow) as (b & Hb & <-).
    exists b. split; [lia |]. now rewrite <- E.
Qed.


Lemma shape_masked nb nt x thresh cm :
  shape nb nt x -> length cm = nt -> shape nb nt (masked x thresh cm).
Proof.
  intros [L F] Hc. split; unfold masked.
  - now rewrite length_map.
  - apply Forall_forall. intros r Hr. apply in_map_iff in Hr.
    destruct Hr as (r0 & <- & Hr0). rewrite length_map2.
    rewrite Forall_forall in F. rewrite (F r0 Hr0). lia.
Qed.

Lemma mget_masked nb nt x thresh cm b j :
  shape nb nt x -> length cm = nt -> (b < nb)%nat -> (j < nt)%nat ->
  mget (masked x thresh cm) b j
  = mget x b j * Qof_bool (Qgtb (mget x b j) (thresh * nth j cm 0)).
Proof.
  intros Hx Hc Hb Hj. unfold mget, masked.
  set (f := fun row : list Q =>
              map2 (fun v m => v * Qof_bool (Qgtb v (thresh * m))) row cm).
  change (@nil Q) with (f []) at 1. rewrite map_nth.
  unfold f.
  apply (nth_map2 (fun v m => v * Qof_bool (Qgtb v (thresh * m)))
           (nth b x []) cm j 0 0 0); [| lia].
  now rewrite (shape_row nb nt x b Hx Hb).
Qed.

(** The two shifted copies of the padded array that line 62 compares with. *)
Lemma below_row {A : Type} nb nt (m : list (list A)) b :
  shape nb nt m -> (b < nb)%nat ->
  nth b (firstn (length (pad_edge m) - 2) (pad_edge m)) [] = nth (b - 1) m [].
Proof.
  intros [L F] Hb. destruct m as [| r m']; [cbn in L; lia |].
  unfold pad_edge. cbn [length]. rewrite length_app. cbn [length] in *.
  rewrite nth_firstn.
  replace (b <? S (S (length m') + 1) - 2)%nat with true
    by (symmetry; apply Nat.ltb_lt; lia).
  destruct b as [| b]; [reflexivity |].
  cbn [nth]. replace (S b - 1)%nat with b by lia.
  apply app_nth1. cbn [length]. lia.
Qed.

Lemma above_row {A : Type} nb nt (m : list (list A)) b :
  shape nb nt m -> (b < nb)%nat ->
  nth b (skipn 2 (pad_edge m)) []
  = nth (if (b + 1 <? nb)%nat then b + 1 else b)%nat m [].
Proof.
  intros [L F] Hb. destruct m as [| r m']; [cbn in L; lia |].
  unfold pad_edge. rewrite nth_skipn.
  change (nth (2 + b) (r :: (r :: m') ++ [last (r :: m') r]) [])
    with (nth (S b) ((r :: m') ++ [last (r :: m') r]) []).
  destruct (b + 1 <? nb)%nat eqn:E.
  - apply Nat.ltb_lt in E. replace (S b) with (b + 1)%nat by lia.
    apply app_nth1. lia.
  - apply Nat.ltb_ge in E. rewrite app_nth2 by lia.
    replace (S b - length (r :: m'))%nat with O by lia.
    change (nth 0 [last (r :: m') r] []) with (last (r :: m') r).
    rewrite last_is_nth.
    rewrite (nth_indep (r :: m') r []) by (cbn [length]; lia).
    f_equal. lia.
Qed.

Lemma shape_below {A : Type} nb nt (m : list (list A)) :
  shape nb nt m -> (0 < nb)%nat ->
  shape nb nt (firstn (length (pad_edge m) - 2) (pad_edge m)).
Proof.
  intros Hm H. apply shape_intro.
  - destruct Hm as [L F]. destruct m as [| r m']; [cbn in L; lia |].
    unfold pad_edge. rewrite length_firstn. cbn [length].
    rewrite length_app. cbn [length] in *. lia.
  - intros b Hb. rewrite (below_row nb nt m b Hm Hb).
    apply (shape_row nb nt m); [exact Hm | lia].
Qed.

Lemma shape_above {A : Type} nb nt (m : list (list A)) :
  shape nb nt m -> (0 < nb)%nat -> shape nb nt (skipn 2 (pad_edge m)).
Proof.
  intros Hm H. apply shape_intro.
  - destruct Hm as [L F]. destruct m as [| r m']; [cbn in L; lia |].
    unfold pad_edge. rewrite length_skipn. cbn [length].
    rewrite length_app. cbn [length] in *. lia.
  - intros b Hb. rewrite (above_row nb nt m b Hm Hb).
    apply (shape_row nb nt m); [exact Hm |].
    destruct (b + 1 <? nb)%nat eqn:E; [apply Nat.ltb_lt in E |]; lia.
Qed.

(** Entry [(b, j)] of the mask that [column_wise_local_max] returns. *)
Lemma mask_entry nb nt x thresh :
  shape nb nt x -> (0 < nb)%nat ->
  exists cm mask,
    np_max_axis0 x = Ok cm /\ length cm = nt
    /\ (forall j, (j < nt)%nat -> nth j cm 0 = column_max x j)
    /\ column_wise_local_max x thresh = Ok mask
    /\ shape nb nt mask
    /\ forall b j, (b < nb)%nat -> (j < nt)%nat ->
         let m := masked x thresh cm in
         nth j (nth b mask []) false
         = Qgtb (mget m b j) (mget m (b - 1) j)
           && Qgeb (mget m b j)
                   (mget m (if (b + 1 <? nb)%nat then b + 1 else b)%nat j).
Proof.
  intros Hx H.
  destruct (np_max_axis0_spec nb nt x Hx H) as (cm & Ecm & Lcm & Ncm).
  pose proof (shape_masked nb nt x thresh cm Hx Lcm) as Hm.
  pose proof (shape_below nb nt _ Hm H) as Hlo.
  pose proof (shape_above nb nt _ Hm H) as Hhi.
  exists cm. eexists. split; [exact Ecm |]. split; [exact Lcm |].
  split; [exact Ncm |]. unfold column_wise_local_max. rewrite Ecm. cbn [bind].
  split; [reflexivity |]. split.
  - apply shape_mmap2; apply shape_mmap2; assumption.
  - intros b j Hb Hj. cbn zeta.
    rewrite (nth_mmap2 andb nb nt _ _ b j false false false);
      [| apply shape_mmap2; assumption | apply shape_mmap2; assumption
       | exact Hb | exact Hj].
    rewrite (nth_mmap2 Qgtb nb nt _ _ b j 0 0 false); try assumption.
    rewrite (nth_mmap2 Qgeb nb nt _ _ b j 0 0 false); try assumption.
    rewrite (below_row nb nt _ b Hm Hb), (above_row nb nt _ b Hm Hb).
    reflexivity.
Qed.

(** The comparison of line 62 on three non-negative values of one frame:
    zeroing what fails the threshold [t] changes nothing for a value that
    passes it, and lets no failing value through. *)
Lemma masked_comparison (t v lo hi : Q) :
  0 <= v -> 0 <= lo -> 0 <= hi ->
  let m := fun z => z * Qof_bool (Qgtb z t) in
  Qgtb (m v) (m lo) && Qgeb (m v) (m hi) = true
  <-> t < v /\ lo < v /\ hi <= v.
Proof.
  intros Hv Hlo Hhi m. unfold m.
  rewrite andb_true_iff, Qgtb_gt, Qgeb_ge.
  destruct (Qgtb v t) eqn:Ev; destruct (Qgtb lo t) eqn:El;
    destruct (Qgtb hi t) eqn:Eh; unfold Qof_bool;
    try apply Qgtb_gt in Ev; try apply Qgtb_gt in El; try apply Qgtb_gt in Eh;
    try apply Qltb_ge in Ev; try apply Qltb_ge in El; try apply Qltb_ge in Eh;
    split; intros; repeat split; lra.
Qed.

Lemma spectrogram_nonneg nb nt x b j :
  spectrogram nb nt x -> 0 <= mget x b j.
Proof.
  intros [[L F] N]. unfold mget.
  destruct (Nat.lt_ge_cases b (length x)) as [Hb | Hb].
  - rewrite Forall_forall in N.
    pose proof (N _ (nth_In x [] Hb)) as Nr.
    destruct (Nat.lt_ge_cases j (length (nth b x []))) as [Hj | Hj].
    + rewrite Forall_forall in Nr. apply Nr. now apply nth_In.
    + rewrite nth_overflow by lia. lra.
  - rewrite (nth_overflow x) by lia. destruct j; cbn; lra.
Qed.

Lemma argwhere_spec mask b j :
  In (b, j) (argwhere mask)
  <-> (b < length mask)%nat /\ (j < length (nth b mask []))%nat
      /\ nth j (nth b mask []) false = true.
Proof.
  unfold argwhere. rewrite in_flat_map. split.
  - intros (b' & Hb' & Hin). apply in_map_iff in Hin.
    destruct Hin as (j' & E & Hj'). inversion E; subst.
    apply in_seq in Hb'. apply filter_In in Hj'. destruct Hj' as [Hj' T].
    apply in_seq in Hj'. repeat split; [lia | lia | exact T].
  - intros (Hb & Hj & T). exists b. split; [apply in_seq; lia |].
    apply in_map_iff. exists j. split; [reflexivity |].
    apply filter_In. split; [apply in_seq; lia | exact T].
Qed.

Lemma mask_is_column_peak nb nt x thresh :
  spectrogram nb nt x -> (0 < nb)%nat ->
  exists mask,
    column_wise_local_max x thresh = Ok mask
    /\ shape nb nt mask
    /\ forall b j, (b < nb)%nat -> (j < nt)%nat ->
         (nth j (nth b mask []) false = true <-> column_peak x thresh b j).
Proof.
  intros Hs H. pose proof Hs as [Hx _].
  destruct (mask_entry nb nt x thresh Hx H)
    as (cm & mask & Ecm & Lcm & Ncm & Em & Sm & Hentry).
  exists mask. split; [exact Em |]. split; [exact Sm |].
  intros b j Hb Hj. rewrite (Hentry b j Hb Hj). cbn zeta.
  assert (Hhi : ((if (b + 1 <? nb)%nat then b + 1 else b) < nb)%nat).
  { destruct (b + 1 <? nb)%nat eqn:E; [apply Nat.ltb_lt in E |]; lia. }
  rewrite !(mget_masked nb nt x thresh cm) by (try assumption; lia).
  rewrite (Ncm j Hj).
  rewrite (masked_comparison (thresh * column_max x j) (mget x b j)
             (mget x (b - 1) j)
             (mget x (if (b + 1 <? nb)%nat then b + 1 else b)%nat j))
    by (eapply spectrogram_nonneg; exact Hs).
  unfold column_peak, bin_below, bin_above.
  destruct Hx as [L _]. rewrite L.
  replace (if (b =? 0)%nat then mget x b j else mget x (b - 1) j)
    with (mget x (b - 1) j)
    by (destruct b; [reflexivity | reflexivity]).
  now destruct (b + 1 <? nb)%nat.
Qed.

(** The positions that [np.argwhere] reads off the mask. *)
Lemma peak_positions nb nt x thresh :
  spectrogram nb nt x -> (0 < nb)%nat ->
  exists mask,
    column_wise_local_max x thresh = Ok mask
    /\ shape nb nt mask
    /\ forall b j,
         In (b, j) (argwhere mask)
         <-> (b < nb)%nat /\ (j < nt)%nat /\ column_peak x thresh b j.
Proof.
  intros Hs H.
  destruct (mask_is_column_peak nb nt x thresh Hs H) as (mask & Em & Sm & Hm).
  exists mask. split; [exact Em |]. split; [exact Sm |].
  intros b j. rewrite argwhere_spec. destruct Sm as [Lm Fm]. rewrite Lm.
  split.
  - intros (Hb & Hj & T).
    rewrite (shape_row nb nt mask b (conj Lm Fm) Hb) in Hj.
    split; [exact Hb |]. split; [exact Hj |]. now apply Hm.
  - intros (Hb & Hj & P). split; [exact Hb |].
    rewrite (shape_row nb nt mask b (conj Lm Fm) Hb).
    split; [exact Hj |]. now apply Hm.
Qed.

(** C3, as the code has it.  On a spectrogram (a rectangular grid of
    non-negative magnitudes with at least one bin) and for any threshold,
    column-wise peak picking returns a mask of the same shape whose true
    positions are exactly the (bin, frame) pairs whose magnitude exceeds
    the threshold times the frame's column maximum and that are a strict
    local maximum against the bin below and a non-strict one against the
    bin above, an edge bin being compared with its own value; no returned
    bin lies below the threshold times the column maximum.  Of the two
    edge bins only the last can be a peak: it is returned exactly when it
    exceeds the threshold and the bin below it; bin 0, compared strictly
    with its own value, is never returned. *)
Theorem column_peaks_exact (x : matrix) (thresh : Q) (nb nt : nat) :
  spectrogram nb nt x -> (0 < nb)%nat ->
  exists mask,
    column_wise_local_max x thresh = Ok mask
    /\ shape nb nt mask
    /\ (forall b j,
          In (b, j) (argwhere mask)
          <-> (b < nb)%nat /\ (j < nt)%nat /\ column_peak x thresh b j)
    /\ (forall b j,
          In (b, j) (argwhere mask) ->
          ~ mget x b j < thresh * column_max x j)
    /\ (forall b j, (b < nb)%nat -> (j < nt)%nat ->
          mget x b j <= column_max x j)
    /\ (forall j, (j < nt)%nat ->
          exists b, (b < nb)%nat /\ column_max x j = mget x b j)
    /\ (forall j, ~ In (O, j) (argwhere mask))
    /\ (forall j, (2 <= nb)%nat -> (j < nt)%nat ->
          (In ((nb - 1)%nat, j) (argwhere mask)
           <-> thresh * column_max x j < mget x (nb - 1) j
               /\ mget x (nb - 2) j < mget x (nb - 1) j)).
Proof.
  intros Hs H.
  destruct (peak_positions nb nt x thresh Hs H) as (mask & Em & Sm & Hin).
  exists mask. split; [exact Em |]. split; [exact Sm |].
  split; [exact Hin |]. split; [| split; [| split; [| split]]].
  - intros b j Hbj. apply Hin in Hbj. destruct Hbj as (_ & _ & P & _). lra.
  - intros b j Hb Hj.
    now apply (column_max_greatest nb nt x j (proj1 Hs) H Hj).
  - intros j Hj.
    now apply (column_max_greatest nb nt x j (proj1 Hs) H Hj).
  - intros j Hj. apply Hin in Hj. destruct Hj as (_ & _ & _ & P & _).
    unfold bin_below in P. cbn [Nat.eqb] in P. lra.
  - intros j Hnb Hj. rewrite Hin. unfold column_peak, bin_below, bin_above.
    destruct Hs as [[L _] _]. rewrite L.
    replace (nb - 1 =? 0)%nat with false by (symmetry; apply Nat.eqb_neq; lia).
    replace (nb - 1 + 1 <? nb)%nat with false
      by (symmetry; apply Nat.ltb_ge; lia).
    replace (nb - 1 - 1)%nat with (nb - 2)%nat by lia.
    split.
    + intros (_ & _ & P1 & P2 & _). now split.
    + intros [P1 P2]. split; [lia |]. split; [exact Hj |].
      split; [exact P1 |]. split; [exact P2 | lra].
Qed.

(** ** Writing at a list of positions *)

Lemma set_nth_overflow {A : Type} n (x : A) l :
  (length l <= n)%nat -> set_nth n x l = l.
Proof.
  revert n. induction l as [| h t IH]; intros [| n] H; cbn in *;
    try reflexivity; try lia.
  f_equal. apply IH. lia.
Qed.

Lemma length_mset m b j v : length (mset m b j v) = length m.
Proof. unfold mset. apply length_set_nth. Qed.

Lemma row_length_mset m b j v b' :
  length (nth b' (mset m b j v) []) = length (nth b' m []).
Proof.
  unfold mset. destruct (Nat.eq_dec b b') as [<- | N].
  - destruct (Nat.lt_ge_cases b (length m)) as [H | H].
    + rewrite nth_set_nth_same by exact H. apply length_set_nth.
    + now rewrite set_nth_overflow by exact H.
  - now rewrite nth_set_nth_other by exact N.
Qed.

Lemma inside_mset m b j v e : inside m e -> inside (mset m b j v) e.
Proof.
  unfold inside. now rewrite length_mset, row_length_mset.
Qed.

Lemma mget_mset_same m b j v :
  inside m (b, j) -> mget (mset m b j v) b j = v.
Proof.
  intros [Hb Hj]. cbn [fst snd] in *. unfold mget, mset.
  rewrite nth_set_nth_same by exact Hb. now apply nth_set_nth_same.
Qed.

Lemma mget_mset_other m b j v b' j' :
  (b, j) <> (b', j') -> mget (mset m b j v) b' j' = mget m b' j'.
Proof.
  intros N. unfold mget, mset. destruct (Nat.eq_dec b b') as [<- | Nb].
  - destruct (Nat.lt_ge_cases b (length m)) as [H | H].
    + rewrite nth_set_nth_same by exact H.
      apply nth_set_nth_other. congruence.
    + now rewrite set_nth_overflow by exact H.
  - now rewrite nth_set_nth_other by exact Nb.
Qed.

Lemma scatter_cons m e idx (g : nat * nat -> Q) :
  scatter m (e :: idx) (map g (e :: idx))
  = scatter (mset m (fst e) (snd e) (g e)) idx (map g idx).
Proof. reflexivity. Qed.

Lemma scatter_out (g : nat * nat -> Q) idx : forall m b j,
  ~ In (b, j) idx -> mget (scatter m idx (map g idx)) b j = mget m b j.
Proof.
  induction idx as [| e idx IH]; intros m b j N; [reflexivity |].
  rewrite scatter_cons, IH by (intros H; apply N; now right).
  apply mget_mset_other. intros E. apply N. left.
  destruct e; cbn [fst snd] in E. exact E.
Qed.

Lemma pos_eq_dec (p q : nat * nat) : {p = q} + {p <> q}.
Proof. decide equality; apply Nat.eq_dec. Qed.

Lemma scatter_in (g : nat * nat -> Q) idx : forall m b j,
  (forall e, In e idx -> inside m e) ->
  In (b, j) idx -> mget (scatter m idx (map g idx)) b j = g (b, j).
Proof.
  induction idx as [| e idx IH]; intros m b j Hin H; [contradiction |].
  rewrite scatter_cons.
  destruct (in_dec pos_eq_dec (b, j) idx) as [I | I].
  - apply IH; [| exact I]. intros e' He'. apply inside_mset, Hin. now right.
  - destruct H as [-> | H]; [| contradiction].
    rewrite scatter_out by exact I. cbn [fst snd].
    apply mget_mset_same. apply (Hin (b, j)). now left.
Qed.

Lemma mget_zeros (spec : matrix) b j : mget (mmap (fun _ => 0) spec) b j = 0.
Proof.
  unfold mget, mmap.
  destruct (Nat.lt_ge_cases b (length spec)) as [Hb | Hb].
  - change (@nil Q) with (map (fun _ : Q => 0) []). rewrite map_nth.
    destruct (nth_in_or_default j (map (fun _ : Q => 0) (nth b spec [])) 0)
      as [I | E]; [| exact E].
    apply in_map_iff in I. destruct I as (v & E & _). now rewrite <- E.
  - rewrite (nth_overflow (map (map (fun _ : Q => 0)) spec) [])
      by (rewrite length_map; exact Hb).
    now destruct j.
Qed.

(** The two tables of lines 40-49, entry by entry. *)
Lemma tables_at nb nt spec mask (g : nat * nat -> Q) b j :
  shape nb nt spec -> shape nb nt mask ->
  mget (scatter (mmap (fun _ : Q => 0) spec) (argwhere mask)
          (map g (argwhere mask))) b j
  = if in_dec pos_eq_dec (b, j) (argwhere mask) then g (b, j) else 0.
Proof.
  intros Hs Hm. destruct (in_dec pos_eq_dec (b, j) (argwhere mask)) as [I | I].
  - apply scatter_in; [| exact I].
    intros [b' j'] He. apply argwhere_spec in He. destruct He as (Hb & Hj & _).
    pose proof (shape_mmap (fun _ : Q => 0) nb nt spec Hs) as Hz.
    destruct Hm as [Lm Fm]. rewrite Lm in Hb.
    rewrite (shape_row nb nt mask b' (conj Lm Fm) Hb) in Hj.
    split; cbn [fst snd].
    + destruct Hz as [-> _]. exact Hb.
    + now rewrite (shape_row nb nt _ b' Hz Hb).
  - rewrite scatter_out by exact I. apply mget_zeros.
Qed.

(** ** The interpolation arrays of lines 30-37 *)

Section Interpolation.

Variables (nb nt : nat) (spec : matrix).
Hypothesis Hspec : shape nb nt spec.

Let len_spec : length spec = nb := proj1 Hspec.

Lemma shape_shift_two : shape (nb - 2) nt (shift_two spec).
Proof.
  unfold shift_two. apply shape_mmap2.
  - apply shape_skipn. exact Hspec.
  - rewrite len_spec.
    replace (nb - 2)%nat with (Nat.min (nb - 2) nb) at 1 by lia.
    apply shape_firstn. exact Hspec.
Qed.

Lemma shape_inner_rows :
  shape (nb - 2) nt (firstn (length spec - 2) (skipn 1 spec)).
Proof.
  rewrite len_spec.
  replace (nb - 2)%nat with (Nat.min (nb - 2) (nb - 1)) at 1 by lia.
  apply shape_firstn, shape_skipn. exact Hspec.
Qed.

Lemma shift_two_at i j :
  (i < nb - 2)%nat -> (j < nt)%nat ->
  mget (shift_two spec) i j = mget spec (i + 2) j - mget spec i j.
Proof.
  intros Hi Hj. unfold mget, shift_two.
  rewrite (nth_mmap2 Qminus (nb - 2) nt _ _ i j 0 0 0); try assumption.
  - rewrite nth_skipn, nth_firstn, len_spec.
    replace (i <? nb - 2)%nat with true by (symmetry; apply Nat.ltb_lt; lia).
    now replace (2 + i)%nat with (i + 2)%nat by lia.
  - apply shape_skipn. exact Hspec.
  - rewrite len_spec.
    replace (nb - 2)%nat with (Nat.min (nb - 2) nb) at 1 by lia.
    apply shape_firstn. exact Hspec.
Qed.

Lemma average_at i j :
  (i < nb - 2)%nat -> (j < nt)%nat ->
  mget (average spec) i j
  = (mget spec (i + 2) j - mget spec i j) * (1 # 2).
Proof.
  intros Hi Hj. unfold average.
  rewrite <- (shift_two_at i j Hi Hj). unfold mget.
  destruct shape_shift_two as [L F].
  apply (nth_mmap (fun d => d * (1 # 2)) (shift_two spec) i j 0 0); [lia |].
  now rewrite (shape_row (nb - 2) nt _ i (conj L F) Hi).
Qed.

Lemma shape_average : shape (nb - 2) nt (average spec).
Proof. apply shape_mmap, shape_shift_two. Qed.

Lemma shift_inner_at i j :
  (i < nb - 2)%nat -> (j < nt)%nat ->
  let d2 := mget spec (i + 2) j - mget spec i j in
  mget (shift_inner spec) i j
  = d2 * (1 # 2) / floor_eps (2 * (mget spec (i + 1) j - d2)).
Proof.
  intros Hi Hj d2. unfold shift_inner.
  set (raw := mmap2 Qminus (firstn (length spec - 2) (skipn 1 spec))
                (shift_two spec)).
  assert (Sraw : shape (nb - 2) nt raw)
    by (apply shape_mmap2; [apply shape_inner_rows | apply shape_shift_two]).
  assert (Eraw : mget raw i j = mget spec (i + 1) j - d2).
  { unfold raw, mget.
    rewrite (nth_mmap2 Qminus (nb - 2) nt _ _ i j 0 0 0);
      [| apply shape_inner_rows | apply shape_shift_two | exact Hi | exact Hj].
    fold (mget (shift_two spec) i j). rewrite (shift_two_at i j Hi Hj).
    rewrite nth_firstn, len_spec, nth_skipn.
    replace (i <? nb - 2)%nat with true by (symmetry; apply Nat.ltb_lt; lia).
    now replace (1 + i)%nat with (i + 1)%nat by lia. }
  set (dbl := mmap (fun d => 2 * d) raw).
  assert (Sdbl : shape (nb - 2) nt dbl) by (apply shape_mmap; exact Sraw).
  assert (Edbl : mget dbl i j = 2 * (mget spec (i + 1) j - d2)).
  { rewrite <- Eraw. unfold dbl, mget. destruct Sraw as [L F].
    apply (nth_mmap (fun d => 2 * d) raw i j 0 0); [lia |].
    now rewrite (shape_row (nb - 2) nt _ i (conj L F) Hi). }
  set (fl := mmap (fun d => if Qltb d eps then eps else d) dbl).
  assert (Sfl : shape (nb - 2) nt fl) by (apply shape_mmap; exact Sdbl).
  assert (Efl : mget fl i j = floor_eps (2 * (mget spec (i + 1) j - d2))).
  { rewrite <- Edbl. unfold fl, mget, floor_eps. destruct Sdbl as [L F].
    apply (nth_mmap (fun d => if Qltb d eps then eps else d) dbl i j 0 0);
      [lia |].
    now rewrite (shape_row (nb - 2) nt _ i (conj L F) Hi). }
  rewrite <- Efl. unfold d2. rewrite <- (average_at i j Hi Hj). unfold mget.
  apply (nth_mmap2 Qdiv (nb - 2) nt _ _ i j 0 0 0);
    [apply shape_average | exact Sfl | exact Hi | exact Hj].
Qed.

Lemma shape_shift_inner : shape (nb - 2) nt (shift_inner spec).
Proof.
  unfold shift_inner. apply shape_mmap2; [apply shape_average |].
  apply shape_mmap, shape_mmap, shape_mmap2;
    [apply shape_inner_rows | apply shape_shift_two].
Qed.

(** A padded array: zero on the first row and below the inner rows. *)
Lemma pad_zero_inner a b j :
  shape (nb - 2) nt a -> (1 <= b)%nat -> (b + 1 < nb)%nat ->
  mget (pad_zero nt a) b j = mget a (b - 1) j.
Proof.
  intros [L F] H1 H2. unfold mget, pad_zero.
  destruct b as [| b]; [lia |]. cbn [nth].
  replace (S b - 1)%nat with b by lia.
  now rewrite app_nth1 by lia.
Qed.

Lemma pad_zero_edge a b j :
  shape (nb - 2) nt a -> (b < nb)%nat -> (b = 0 \/ b + 1 = nb)%nat ->
  mget (pad_zero nt a) b j = 0.
Proof.
  intros [L F] Hb He. unfold mget, pad_zero.
  assert (Z : forall k, nth k (repeat 0 nt) 0 = 0).
  { intros k. destruct (nth_in_or_default k (repeat 0 nt) 0) as [I | E];
      [| exact E]. now apply repeat_spec in I. }
  destruct b as [| b]; [apply Z |]. cbn [nth].
  rewrite app_nth2 by lia. replace (b - length a)%nat with O by lia. apply Z.
Qed.

Lemma ncols_spec : (0 < nb)%nat -> ncols spec = nt.
Proof. apply (ncols_shape nb nt spec Hspec). Qed.

Lemma dskew_at b j :
  (b < nb)%nat -> (j < nt)%nat ->
  mget (dskew spec) b j
  = (1 # 2) * mget (avg_padded spec) b j * mget (shift_padded spec) b j.
Proof.
  intros Hb Hj. unfold dskew, avg_padded, shift_padded, mget.
  rewrite ncols_spec by lia.
  apply (nth_mmap2 (fun a s => (1 # 2) * a * s) (S (S (nb - 2))) nt
           _ _ b j 0 0 0); try lia.
  - apply shape_pad_zero, shape_average.
  - apply shape_pad_zero, shape_shift_inner.
Qed.

(** At an interior bin the stored values are those of the three-point
    formula. *)
Lemma shift_padded_interior b j :
  (1 <= b)%nat -> (b + 1 < nb)%nat -> (j < nt)%nat ->
  let d2 := mget spec (b + 1) j - mget spec (b - 1) j in
  mget (shift_padded spec) b j
  = d2 * (1 # 2) / floor_eps (2 * (mget spec b j - d2))
  /\ mget (avg_padded spec) b j = d2 * (1 # 2).
Proof.
  intros H1 H2 Hj d2. unfold shift_padded, avg_padded.
  rewrite ncols_spec by lia.
  rewrite (pad_zero_inner _ b j shape_shift_inner H1 H2).
  rewrite (pad_zero_inner _ b j shape_average H1 H2).
  rewrite shift_inner_at, average_at by lia. cbn zeta. unfold d2.
  replace (b - 1 + 2)%nat with (b + 1)%nat by lia.
  now replace (b - 1 + 1)%nat with b by lia.
Qed.

Lemma padded_edge b j :
  (b < nb)%nat -> (b = 0 \/ b + 1 = nb)%nat ->
  mget (shift_padded spec) b j = 0 /\ mget (avg_padded spec) b j = 0.
Proof.
  intros Hb He. unfold shift_padded, avg_padded.
  rewrite ncols_spec by lia. split.
  - apply pad_zero_edge; [apply shape_shift_inner | exact Hb | exact He].
  - apply pad_zero_edge; [apply shape_average | exact Hb | exact He].
Qed.

End Interpolation.

Lemma floor_eps_pos d : 0 < floor_eps d.
Proof.
  unfold floor_eps. destruct (Qltb d eps) eqn:E.
  - reflexivity.
  - apply Qltb_ge in E. assert (0 < eps) by reflexivity. lra.
Qed.



(** ** The strongest peak of a frame *)

Lemma argmax_from_spec l : forall p best bv,
  (best < length p)%nat -> bv = nth best (p ++ l) 0 ->
  (forall i, (i < length p)%nat -> nth i (p ++ l) 0 <= bv) ->
  (forall i, (i < best)%nat -> nth i (p ++ l) 0 < bv) ->
  let a := argmax_from best bv (length p) l in
  (a < length (p ++ l))%nat
  /\ (forall i, (i < length (p ++ l))%nat -> nth i (p ++ l) 0 <= nth a (p ++ l) 0)
  /\ (forall i, (i < a)%nat -> nth i (p ++ l) 0 < nth a (p ++ l) 0).
Proof.
  induction l as [| x l IH]; intros p best bv Hb Ebv Hle Hlt; cbn [argmax_from].
  - cbn zeta. rewrite app_nil_r in *. subst bv. repeat split; auto.
  - assert (Ex : nth (length p) (p ++ x :: l) 0 = x)
      by (rewrite app_nth2 by lia; now rewrite Nat.sub_diag).
    assert (Eapp : p ++ x :: l = (p ++ [x]) ++ l)
      by (now rewrite <- app_assoc).
    assert (Elen : S (length p) = length (p ++ [x]))
      by (rewrite length_app; cbn; lia).
    destruct (Qltb bv x) eqn:E.
    + apply Qltb_lt in E. rewrite Eapp, Elen.
      apply IH; rewrite <- ?Eapp, <- ?Elen.
      * lia.
      * now rewrite Ex.
      * intros i Hi. destruct (Nat.eq_dec i (length p)) as [-> | N].
        -- rewrite Ex. lra.
        -- assert (i < length p)%nat by lia. pose proof (Hle i H). lra.
      * intros i Hi. pose proof (Hle i Hi). lra.
    + apply Qltb_ge in E. rewrite Eapp, Elen.
      apply IH; rewrite <- ?Eapp, <- ?Elen.
      * lia.
      * exact Ebv.
      * intros i Hi. destruct (Nat.eq_dec i (length p)) as [-> | N].
        -- now rewrite Ex.
        -- apply Hle. lia.
      * exact Hlt.
Qed.

(** [argmax] returns the first position of a largest value. *)
Lemma argmax_spec l :
  l <> [] ->
  (argmax l < length l)%nat
  /\ (forall i, (i < length l)%nat -> nth i l 0 <= nth (argmax l) l 0)
  /\ (forall i, (i < argmax l)%nat -> nth i l 0 < nth (argmax l) l 0).
Proof.
  destruct l as [| x l]; [congruence |]. intros _. unfold argmax.
  apply (argmax_from_spec l [x] O x).
  - cbn. lia.
  - reflexivity.
  - intros i Hi. cbn in Hi. replace i with O by lia. cbn. lra.
  - intros i Hi. lia.
Qed.

Lemma nth_column m b j : nth b (column m j) 0 = mget m b j.
Proof.
  unfold column, mget.
  destruct j; exact (map_nth (fun row => nth _ row 0) m [] b).
Qed.

Lemma scatter_shape_kept es : forall m,
  let m' := fold_left
              (fun acc e => mset acc (fst (fst e)) (snd (fst e)) (snd e)) es m in
  length m' = length m
  /\ forall b, length (nth b m' []) = length (nth b m []).
Proof.
  induction es as [| e es IH]; intros m; cbn [fold_left]; [now split |].
  destruct (IH (mset m (fst (fst e)) (snd (fst e)) (snd e))) as [L R].
  cbn zeta in *. split.
  - now rewrite L, length_mset.
  - intros b. now rewrite R, row_length_mset.
Qed.

Lemma nth_map_seq {A : Type} (f : nat -> A) n j d :
  (j < n)%nat -> nth j (map f (seq 0 n)) d = f j.
Proof.
  intros H.
  rewrite (nth_indep _ d (f O)) by (rewrite length_map, length_seq; exact H).
  rewrite map_nth, seq_nth by exact H. reflexivity.
Qed.

Lemma ncols_nth0 {A : Type} (m : list (list A)) : ncols m = length (nth 0 m []).
Proof. now destruct m. Qed.

Lemma table_shape nb nt spec idx vals :
  shape nb nt spec -> (0 < nb)%nat ->
  let t := scatter (mmap (fun _ : Q => 0) spec) idx vals in
  length t = nb /\ ncols t = nt.
Proof.
  intros Hs H t. unfold t, scatter.
  destruct (scatter_shape_kept (combine idx vals) (mmap (fun _ : Q => 0) spec))
    as [L R]. cbn zeta in L, R.
  pose proof (shape_mmap (fun _ : Q => 0) nb nt spec Hs) as Hz.
  split.
  - rewrite L. now destruct Hz.
  - rewrite ncols_nth0, R. now apply (shape_row nb nt _ O Hz).
Qed.

Lemma square_over_positive (a f : Q) : 0 < f -> 0 <= (1 # 2) * a * (a / f).
Proof.
  intros Hf. unfold Qdiv. pose proof (Qinv_lt_0_compat f Hf) as Hi.
  set (i := / f) in *. nra.
Qed.

Lemma dskew_nonneg nb nt spec b j :
  shape nb nt spec -> (b < nb)%nat -> (j < nt)%nat ->
  0 <= mget (dskew spec) b j.
Proof.
  intros Hs Hb Hj. rewrite (dskew_at nb nt spec Hs b j Hb Hj).
  destruct (Nat.eq_dec b 0) as [E0 | N0];
    [| destruct (Nat.eq_dec (b + 1) nb) as [E1 | N1]].
  - destruct (padded_edge nb nt spec Hs b j Hb (or_introl E0)) as [-> ->]. lra.
  - destruct (padded_edge nb nt spec Hs b j Hb (or_intror E1)) as [-> ->]. lra.
  - destruct (shift_padded_interior nb nt spec Hs b j) as [-> ->]; try lia.
    apply square_over_positive, floor_eps_pos.
Qed.

Lemma peak_magnitude_pos nb nt spec b j :
  spectrogram nb nt spec -> (b < nb)%nat -> (j < nt)%nat ->
  column_peak spec max_thresh b j -> 0 < peak_magnitude spec b j.
Proof.
  intros Hs Hb Hj (P & _). unfold peak_magnitude.
  pose proof (dskew_nonneg nb nt spec b j (proj1 Hs) Hb Hj) as D.
  assert (Hnb : (0 < nb)%nat) by lia.
  destruct (column_max_greatest nb nt spec j (proj1 Hs) Hnb Hj) as [U _].
  pose proof (U b Hb) as Ub.
  pose proof (spectrogram_nonneg nb nt spec b j Hs) as Nb.
  unfold max_thresh in P. lra.
Qed.

(** What [parabolic_of_spec] holds at row [j], column [j]: the stored
    frequency of the first bin of frame [j] with the largest stored
    magnitude, the tables being zero away from the peaks. *)
Lemma strongest_peak_of_spec nb nt spec sample_rate :
  spectrogram nb nt spec -> (0 < nb)%nat ->
  exists out,
    parabolic_of_spec spec sample_rate = Ok out
    /\ length out = nt
    /\ forall j, (j < nt)%nat ->
         ((forall b, (b < nb)%nat -> ~ column_peak spec max_thresh b j) ->
          mget out j j = 0)
         /\ ((exists b, (b < nb)%nat /\ column_peak spec max_thresh b j) ->
             exists a,
               (a < nb)%nat /\ column_peak spec max_thresh a j
               /\ (forall b, (b < nb)%nat -> column_peak spec max_thresh b j ->
                     peak_magnitude spec b j <= peak_magnitude spec a j)
               /\ (forall b, (b < a)%nat -> column_peak spec max_thresh b j ->
                     peak_magnitude spec b j < peak_magnitude spec a j)
               /\ mget out j j = peak_frequency spec sample_rate a j).
Proof.
  intros Hs Hnb. pose proof (proj1 Hs) as Hx.
  destruct (peak_positions nb nt spec max_thresh Hs Hnb)
    as (mask & Em & Sm & Hin).
  unfold parabolic_of_spec. rewrite Em. cbn [bind].
  set (idx := argwhere mask).
  set (P := pitch_table spec sample_rate idx).
  set (M := magnitude_table spec idx).
  destruct (table_shape nb nt spec idx
              (map (fun e => peak_magnitude spec (fst e) (snd e)) idx) Hx Hnb)
    as [LM CM]. fold (magnitude_table spec idx) in LM, CM. fold M in LM, CM.
  assert (EP : forall b j,
             mget P b j
             = if in_dec pos_eq_dec (b, j) idx
               then peak_frequency spec sample_rate b j else 0).
  { intros b j. unfold P, pitch_table, idx.
    now rewrite (tables_at nb nt spec mask _ b j Hx Sm). }
  assert (EM : forall b j,
             mget M b j
             = if in_dec pos_eq_dec (b, j) idx
               then peak_magnitude spec b j else 0).
  { intros b j. unfold M, magnitude_table, idx.
    now rewrite (tables_at nb nt spec mask _ b j Hx Sm). }
  eexists. split; [reflexivity |]. split.
  { unfold argmax_axis0. now rewrite !length_map, length_seq. }
  intros j Hj.
  set (a := argmax (column M j)).
  assert (Eout : forall out,
             out = map (fun a => nth a P []) (argmax_axis0 M) ->
             mget out j j = mget P a j).
  { intros out ->. unfold mget, argmax_axis0. rewrite map_map, CM.
    now rewrite (nth_map_seq (fun x => nth (argmax (column M x)) P [])
                   nt j [] Hj). }
  rewrite (Eout _ eq_refl).
  assert (Hcol : column M j <> []).
  { intros E. apply (f_equal (@length Q)) in E. unfold column in E.
    rewrite length_map, LM in E. cbn in E. lia. }
  destruct (argmax_spec (column M j) Hcol) as (Ha & Hmax & Hfirst).
  fold a in Ha, Hmax, Hfirst.
  unfold column in Ha. rewrite length_map, LM in Ha.
  split.
  - intros Hnone. rewrite EP.
    destruct (in_dec pos_eq_dec (a, j) idx) as [I | I]; [| reflexivity].
    apply Hin in I. exfalso. apply (Hnone a); tauto.
  - intros (b0 & Hb0 & Pb0).
    assert (I0 : In (b0, j) idx) by (apply Hin; tauto).
    assert (Ia : In (a, j) idx).
    { destruct (in_dec pos_eq_dec (a, j) idx) as [I | I]; [exact I |].
      exfalso.
      assert (Hle : nth b0 (column M j) 0 <= nth a (column M j) 0).
      { apply Hmax. unfold column. rewrite length_map, LM. exact Hb0. }
      rewrite !nth_column, !EM in Hle.
      destruct (in_dec pos_eq_dec (b0, j) idx); [| contradiction].
      destruct (in_dec pos_eq_dec (a, j) idx); [contradiction |].
      pose proof (peak_magnitude_pos nb nt spec b0 j Hs Hb0 Hj Pb0). lra. }
    exists a. split; [exact Ha |].
    split; [apply Hin in Ia; tauto |]. split; [| split].
    + intros b Hb Pb.
      assert (Ib : In (b, j) idx) by (apply Hin; tauto).
      assert (Hle : nth b (column M j) 0 <= nth a (column M j) 0).
      { apply Hmax. unfold column. rewrite length_map, LM. exact Hb. }
      rewrite !nth_column, !EM in Hle.
      destruct (in_dec pos_eq_dec (b, j) idx); [| contradiction].
      destruct (in_dec pos_eq_dec (a, j) idx); [| contradiction].
      exact Hle.
    + intros b Hb Pb.
      assert (Ib : In (b, j) idx) by (apply Hin; split; [lia | tauto]).
      pose proof (Hfirst b Hb) as Hlt.
      rewrite !nth_column, !EM in Hlt.
      destruct (in_dec pos_eq_dec (b, j) idx); [| contradiction].
      destruct (in_dec pos_eq_dec (a, j) idx); [| contradiction].
      exact Hlt.
    + rewrite EP.
      destruct (in_dec pos_eq_dec (a, j) idx); [reflexivity | contradiction].
Qed.

(** ** The standalone spectral estimator *)

(** C2, as the code has it.  When the magnitude STFT of the cleaned signal
    is a spectrogram with at least one bin, the call returns an array with
    one row per frame, and the value it holds for frame [j] at position
    [j] of row [j] is the stored (refined) frequency of the strongest peak
    of that frame, the lowest bin winning a tie, and the number 0 when no
    bin of the frame qualifies as a peak. *)
Theorem frame_value_is_strongest_peak
    (stft_mag : list Q -> Z -> Q -> matrix) (freqs_of_fft : Q -> Z -> list Q)
    (signal : list Q) (fs : Q) (nb nt : nat) :
  let spec := stft_mag (map (fun x => x - mean signal) signal) win_len
                (inject_Z win_len / 4) in
  spectrogram nb nt spec -> (0 < nb)%nat ->
  exists out,
    snd (detect_pitch_parabolic stft_mag freqs_of_fft signal fs) = Ok out
    /\ length out = nt
    /\ forall j, (j < nt)%nat ->
         ((forall b, (b < nb)%nat -> ~ column_peak spec max_thresh b j) ->
          mget out j j = 0)
         /\ ((exists b, (b < nb)%nat /\ column_peak spec max_thresh b j) ->
             exists a,
               (a < nb)%nat /\ column_peak spec max_thresh a j
               /\ (forall b, (b < nb)%nat -> column_peak spec max_thresh b j ->
                     peak_magnitude spec b j <= peak_magnitude spec a j)
               /\ (forall b, (b < a)%nat -> column_peak spec max_thresh b j ->
                     peak_magnitude spec b j < peak_magnitude spec a j)
               /\ mget out j j = peak_frequency spec fs a j).
Proof.
  intros spec Hs Hnb. unfold detect_pitch_parabolic. cbn [snd].
  exact (strongest_peak_of_spec nb nt spec fs Hs Hnb).
Qed.

(** C9, on the code.  Line 25 subtracts the mean in place: after the call
    the caller's array [1, 3] holds [-1, 1], whatever the STFT helper is. *)
Theorem dc_removal_overwrites_input
    (stft_mag : list Q -> Z -> Q -> matrix) (freqs_of_fft : Q -> Z -> list Q) :
  map Qred (fst (detect_pitch_parabolic stft_mag freqs_of_fft [1; 3] 44100))
  = [-1; 1]
  /\ ~ Forall2 Qeq
         (fst (detect_pitch_parabolic stft_mag freqs_of_fft [1; 3] 44100))
         [1; 3].
Proof.
  split; [reflexivity |].
  unfold detect_pitch_parabolic. cbn [fst map]. intros H.
  inversion H as [| ? ? ? ? E _]; subst. vm_compute in E. discriminate E.
Qed.

(** In general the array is left holding the signal minus its mean. *)
Lemma buffer_after_call
    (stft_mag : list Q -> Z -> Q -> matrix) (freqs_of_fft : Q -> Z -> list Q)
    (signal : list Q) (fs : Q) :
  fst (detect_pitch_parabolic stft_mag freqs_of_fft signal fs)
  = map (fun x => x - mean signal) signal.
Proof. reflexivity. Qed.

(** Bin 0 is compared, strictly, with its own value: it is never a peak.
    The last bin is compared, non-strictly, with its own value from above:
    it can be one. *)
Lemma bottom_bin_never_peak x thresh j : ~ column_peak x thresh 0 j.
Proof.
  intros (_ & H & _). unfold bin_below in H. cbn in H. lra.
Qed.

Lemma top_bin_can_peak : column_peak [[1]; [2]] max_thresh 1 0.
Proof. vm_compute. repeat split; discriminate. Qed.

Module Frames.

Lemma grid_is_spectrogram : spectrogram 5 2 Examples.grid.
Proof.
  split; [split; [reflexivity | repeat constructor] |].
  repeat constructor; discriminate.
Qed.

(** C3 fails as stated.  In the one frame of [Examples.low_heavy] bin 0
    holds the largest magnitude, 5, above the threshold 0.5 and above the
    bin over it, and it is an edge bin; the mask marks nothing. *)
Lemma bottom_bin_is_not_returned :
  spectrogram 2 1 Examples.low_heavy
  /\ Qred (column_max Examples.low_heavy 0) = 5
  /\ max_thresh * column_max Examples.low_heavy 0 < mget Examples.low_heavy 0 0
  /\ mget Examples.low_heavy 1 0 < mget Examples.low_heavy 0 0
  /\ column_wise_local_max Examples.low_heavy max_thresh
     = Ok [[false]; [false]]
  /\ argwhere [[false]; [false]] = [].
Proof.
  split.
  { split; [split; [reflexivity | repeat constructor] |].
    repeat constructor; discriminate. }
  vm_compute. repeat split.
Qed.

Lemma column_peaks_exact_witness :
  exists mask,
    column_wise_local_max Examples.grid max_thresh = Ok mask
    /\ forall b j,
         In (b, j) (argwhere mask)
         <-> (b < 5)%nat /\ (j < 2)%nat
             /\ column_peak Examples.grid max_thresh b j.
Proof.
  assert (H : (0 < 5)%nat) by lia.
  destruct (column_peaks_exact Examples.grid max_thresh 5 2
              grid_is_spectrogram H) as (mask & E & _ & I & _).
  exists mask. split; [exact E | exact I].
Defined.


Lemma frame_value_is_strongest_peak_witness :
  exists out,
    snd (detect_pitch_parabolic (fun _ _ _ => Examples.grid) (fun _ _ => [])
           [1; 3] 4096) = Ok out
    /\ length out = 2%nat.
Proof.
  assert (H : (0 < 5)%nat) by lia.
  destruct (frame_value_is_strongest_peak (fun _ _ _ => Examples.grid)
              (fun _ _ => []) [1; 3] 4096 5 2 grid_is_spectrogram H)
    as (out & E & L & _).
  exists out. split; [exact E | exact L].
Defined.

(** C2 fails as stated.  On the grid, frame 0 has the peaks 1 and 3 and
    frame 1 has none (its largest value sits in bin 0).  What comes back
    has two rows of two numbers, with 37/12 for frame 0 and the number 0
    for frame 1; on an all-zero spectrogram, that of a constant signal once
    its mean is removed, every value returned is the number 0. *)
Lemma silent_frame_reports_zero :
  column_wise_local_max Examples.grid max_thresh = Ok Examples.grid_mask
  /\ argwhere Examples.grid_mask = [(1, 0); (3, 0)]%nat
  /\ match parabolic_of_spec Examples.grid 4096 with
     | Ok out => mmap Qred out = [[37 # 12; 0]; [0; 0]]
     | Raise _ => False
     end
  /\ match detect_pitch_parabolic (fun _ _ _ => Examples.flat)
             (fun _ _ => []) [1; 1; 1; 1] 44100 with
     | (buffer, Ok out) =>
         map Qred buffer = [0; 0; 0; 0] /\ out = [[0; 0]; [0; 0]]
     | (_, Raise _) => False
     end.
Proof. vm_compute. repeat split. Qed.

End Frames.

(** * Part III: further properties of the code *)

(** ** detect_pitches: failures, windows, events and contour *)

Section TrackingMore.

Variable clean_audio : list Q -> list Q.
Variable find_peaks : list Q -> list nat.
Variable parabolic_interp : list Q -> list nat -> list Q * list Q.

Local Abbreviation cands := (candidates find_peaks parabolic_interp).
Local Abbreviation run_loop := (loop find_peaks parabolic_interp).
Local Abbreviation run :=
  (detect_pitches clean_audio find_peaks parabolic_interp).

Lemma range0_positive (wave : list Q) (w : Z) :
  (0 < w)%Z ->
  range0 (Z.of_nat (length wave)) w = Ok (window_starts wave w).
Proof.
  intros H. unfold range0, window_starts.
  replace (w =? 0)%Z with false by (symmetry; apply Z.eqb_neq; lia).
  replace (w <? 0)%Z with false by (symmetry; apply Z.ltb_ge; lia).
  now rewrite Nat2Z.id.
Qed.

Lemma run_positive fs raw w thresh :
  (0 < w)%Z ->
  run fs (mono raw) w thresh
  = (st <- run_loop fs thresh (clean_audio raw) w
             (window_starts (clean_audio raw) w) init ;;
     Ok (tl (pitches st), all_pitches st)).
Proof.
  intros H. unfold detect_pitches. cbn [mono ndim samples Nat.eqb negb].
  now rewrite (range0_positive _ w H).
Qed.

(** X1.  The window length 0 is refused by [range]; a negative one gives an empty
    range, so that nothing is analysed. *)
Theorem degenerate_window_len (fs : Q) (raw : list Q) (thresh : Q) :
  run fs (mono raw) 0 thresh = Raise ValueError
  /\ forall w, (w < 0)%Z -> run fs (mono raw) w thresh = Ok ([], []).
Proof.
  split.
  - reflexivity.
  - intros w H. unfold detect_pitches, range0.
    cbn [mono ndim samples Nat.eqb negb].
    replace (w =? 0)%Z with false by (symmetry; apply Z.eqb_neq; lia).
    replace (w <? 0)%Z with true by (symmetry; apply Z.ltb_lt; lia).
    reflexivity.
Qed.

Lemma body_zero_rate fs thresh i pp st :
  fs == 0 -> pp <> [] -> sentinel_headed st ->
  body fs thresh i pp st = Raise ZeroDivisionError.
Proof.
  intros Hfs Hpp [ev E]. unfold body.
  destruct pp as [| c pp']; [contradiction |]. cbn [length Nat.eqb negb].
  rewrite (last_pitch_of_cons st _ _ E). cbn [bind].
  unfold float_div. apply Qeq_bool_iff in Hfs. now rewrite Hfs.
Qed.

Lemma loop_zero_rate fs thresh wave w starts : forall st,
  fs == 0 -> sentinel_headed st ->
  (exists i, In i starts /\ cands fs wave w i <> []) ->
  run_loop fs thresh wave w starts st = Raise ZeroDivisionError.
Proof.
  induction starts as [| k rest IH]; intros st Hfs Hst (i & Hi & Hc);
    [contradiction |]. cbn [loop].
  destruct (cands fs wave w k) as [| c pp] eqn:E.
  - rewrite body_empty. cbn [bind]. apply IH; [exact Hfs | exact Hst |].
    exists i. split; [| exact Hc]. destruct Hi as [<- | Hi]; [| exact Hi].
    congruence.
  - rewrite (body_zero_rate fs thresh k (c :: pp) st Hfs) by
      (try discriminate; exact Hst).
    reflexivity.
Qed.

(** X2.  With a positive window length on a one-dimensional array the call
    fails in one case only: the sample rate is 0 and some window has a
    candidate, and then it is the division of line 111 that fails.  In
    every other case it returns; line 106 never indexes an empty list. *)
Theorem failure_only_on_zero_rate (fs : Q) (raw : list Q) (w : Z) (thresh : Q) :
  (0 < w)%Z ->
  let wave := clean_audio raw in
  let voiced := exists i, In i (window_starts wave w) /\ cands fs wave w i <> [] in
  (fs == 0 /\ voiced -> run fs (mono raw) w thresh = Raise ZeroDivisionError)
  /\ (~ (fs == 0 /\ voiced) ->
      exists events contour, run fs (mono raw) w thresh = Ok (events, contour)).
Proof.
  intros Hw wave voiced. rewrite (run_positive fs raw w thresh Hw). fold wave.
  split.
  - intros [Hfs Hv].
    now rewrite (loop_zero_rate fs thresh wave w _ init Hfs init_sentinel Hv).
  - intros N. destruct (Qeq_dec fs 0) as [Hfs | Hfs].
    + assert (S : forall j, In j (window_starts wave w) -> cands fs wave w j = []).
      { intros j Hj. destruct (cands fs wave w j) as [| c pp] eqn:E;
          [reflexivity |]. exfalso. apply N. split; [exact Hfs |].
        exists j. split; [exact Hj |]. rewrite E. discriminate. }
      rewrite (loop_silent find_peaks parabolic_interp fs thresh wave w _ init S).
      cbn [bind]. eexists. eexists. reflexivity.
    + destruct (loop_total find_peaks parabolic_interp fs thresh wave w
                  (window_starts wave w) init Hfs init_sentinel) as [st Hst].
      rewrite Hst. cbn [bind]. eexists. eexists. reflexivity.
Qed.

Lemma windows_from (wave : list Q) (w : Z) :
  (0 < w)%Z ->
  forall fuel i, (0 <= i)%Z -> (Z.of_nat (length wave) - i <= Z.of_nat fuel)%Z ->
  concat (map (window wave w)
            (range_from fuel i (Z.of_nat (length wave)) w))
  = skipn (Z.to_nat i) wave.
Proof.
  intros Hw. induction fuel as [| fuel IH]; intros i Hi Hf; cbn [range_from].
  - cbn [map concat]. symmetry. apply skipn_all2. lia.
  - destruct (i <? Z.of_nat (length wave))%Z eqn:E.
    + apply Z.ltb_lt in E. cbn [map concat]. rewrite (IH (i + w)%Z) by lia.
      unfold window, slice.
      destruct (Z.le_gt_cases (i + w) (Z.of_nat (length wave))) as [C | C].
      * rewrite Z.min_r by lia.
        replace (Z.to_nat (i + w - i)) with (Z.to_nat w) by lia.
        replace (Z.to_nat (i + w)) with (Z.to_nat w + Z.to_nat i)%nat by lia.
        rewrite <- skipn_skipn. apply firstn_skipn.
      * rewrite Z.min_l by lia.
        rewrite (skipn_all2 (n := Z.to_nat (i + w))) by lia.
        rewrite app_nil_r. apply firstn_all2. rewrite length_skipn. lia.
    + apply Z.ltb_ge in E. cbn [map concat]. symmetry. apply skipn_all2. lia.
Qed.

(** X3.  The windows of lines 101-102 do not overlap and leave nothing out:
    put end to end they give the signal back, and each holds between one
    and [window_len] samples. *)
Theorem windows_tile_the_signal (wave : list Q) (w : Z) :
  (0 < w)%Z ->
  concat (map (window wave w) (window_starts wave w)) = wave
  /\ forall i, In i (window_starts wave w) ->
       (1 <= length (window wave w i))%nat
       /\ (Z.of_nat (length (window wave w i)) <= w)%Z.
Proof.
  intros Hw. split.
  - unfold window_starts. now rewrite (windows_from wave w Hw) by lia.
  - intros i Hi. unfold window_starts in Hi.
    apply (range_from_complete _ w Hw (length wave) 0) in Hi; [| lia].
    destruct Hi as (n & Hn & -> & Hlt).
    unfold window, slice. rewrite length_firstn, length_skipn. lia.
Qed.

End TrackingMore.

(** ** detect_pitches: what the two returned lists look like *)

Section Subsequences.

Context {A : Type}.

Lemma subseq_refl (l : list A) : subseq l l.
Proof. induction l; constructor; assumption. Qed.

Lemma subseq_snoc_right (l1 l2 : list A) x :
  subseq l1 l2 -> subseq l1 (l2 ++ [x]).
Proof.
  induction 1; cbn.
  - apply subseq_skip, subseq_nil.
  - now apply subseq_skip.
  - now apply subseq_keep.
Qed.

Lemma subseq_snoc_both (l1 l2 : list A) x :
  subseq l1 l2 -> subseq (l1 ++ [x]) (l2 ++ [x]).
Proof.
  induction 1; cbn.
  - apply subseq_keep, subseq_nil.
  - now apply subseq_skip.
  - now apply subseq_keep.
Qed.

Lemma subseq_length (l1 l2 : list A) :
  subseq l1 l2 -> (length l1 <= length l2)%nat.
Proof. induction 1; cbn; lia. Qed.

Lemma subseq_incl (l1 l2 : list A) x : subseq l1 l2 -> In x l1 -> In x l2.
Proof.
  induction 1 as [| y l1 l2 S IH | y l1 l2 S IH]; cbn; intros Hin; auto.
  destruct Hin as [-> | Hin]; auto.
Qed.

End Subsequences.

Lemma spaced_snoc thresh l e :
  spaced thresh l ->
  (forall p ps, l = p :: ps -> thresh <= Qabs (snd e - snd (last ps p))) ->
  spaced thresh (l ++ [e]).
Proof.
  induction l as [| a l IH]; intros Hs Hl; [exact I |].
  destruct l as [| b l].
  - cbn. split; [| exact I]. exact (Hl a [] eq_refl).
  - cbn [app spaced] in *. destruct Hs as [H1 H2]. split; [exact H1 |].
    apply IH; [exact H2 |]. intros p ps E. inversion E; subst.
    specialize (Hl a (p :: ps) eq_refl).
    now rewrite last_cons_default in Hl.
Qed.

Section ReturnedLists.

Variable clean_audio : list Q -> list Q.
Variable find_peaks : list Q -> list nat.
Variable parabolic_interp : list Q -> list nat -> list Q * list Q.

Local Abbreviation cands := (candidates find_peaks parabolic_interp).
Local Abbreviation run_loop := (loop find_peaks parabolic_interp).
Local Abbreviation run :=
  (detect_pitches clean_audio find_peaks parabolic_interp).

Lemma choose_first_two i pp last_pitch :
  choose_pitch i pp last_pitch = nth 0 pp 0
  \/ choose_pitch i pp last_pitch = nth 1 pp 0.
Proof.
  unfold choose_pitch. destruct (_ && _); [now right | now left].
Qed.

(** The two ways an iteration can end well on a state that still carries
    the dummy entry. *)
Lemma body_cases fs thresh i pp st st' :
  sentinel_headed st -> body fs thresh i pp st = Ok st' ->
  (pp = [] /\ st' = st)
  \/ (pp <> []
      /\ exists pitch,
           let last_pitch := snd (last (pitches st) (0, 0)) in
           let entry := (inject_Z i / fs, pitch) in
           pitch = choose_pitch i pp last_pitch
           /\ all_pitches st' = all_pitches st ++ [entry]
           /\ ((thresh <= Qabs (pitch - last_pitch)
                /\ pitches st' = pitches st ++ [entry])
               \/ (Qabs (pitch - last_pitch) < thresh
                   /\ pitches st' = pitches st))).
Proof.
  intros [ev E] H. destruct pp as [| c pp'].
  - left. rewrite body_empty in H. inversion H. now split.
  - right. split; [discriminate |].
    destruct (Qeq_dec fs 0) as [Z0 | NZ].
    + rewrite (body_zero_rate fs thresh i (c :: pp') st Z0) in H;
        [discriminate | discriminate | now exists ev].
    + rewrite (body_nonempty fs thresh i (c :: pp') st _ _ NZ) in H
        by (try discriminate; exact E).
      cbn zeta in H. eexists. cbn zeta. split; [reflexivity |].
      destruct (Qgeb _ thresh) eqn:G; inversion H; subst; cbn [all_pitches pitches].
      * split; [reflexivity |]. left. split; [now apply Qgeb_ge | reflexivity].
      * split; [reflexivity |]. right. split; [now apply Qgeb_lt | reflexivity].
Qed.

Lemma loop_preserves (I : tracker -> Prop) fs thresh wave w :
  (forall i pp st st',
     sentinel_headed st -> I st -> body fs thresh i pp st = Ok st' -> I st') ->
  forall starts st st',
    sentinel_headed st -> I st ->
    run_loop fs thresh wave w starts st = Ok st' -> I st'.
Proof.
  intros Hb. induction starts as [| i rest IH]; intros st st' Hs Hi H;
    cbn [loop] in H.
  - now inversion H; subst.
  - destruct (body fs thresh i (cands fs wave w i) st) as [st1 | e] eqn:E;
      cbn [bind] in H; [| discriminate].
    apply (IH st1 st'); [| | exact H].
    + eapply body_sentinel; eauto.
    + eapply Hb; eauto.
Qed.

(** What a successful call is made of. *)
Lemma run_ok_inv fs buf w thresh events contour :
  run fs buf w thresh = Ok (events, contour) ->
  exists starts st,
    range0 (Z.of_nat (length (clean_audio (samples buf)))) w = Ok starts
    /\ run_loop fs thresh (clean_audio (samples buf)) w starts init = Ok st
    /\ events = tl (pitches st) /\ contour = all_pitches st.
Proof.
  unfold detect_pitches. destruct (negb (ndim buf =? 1)%nat); [discriminate |].
  destruct (range0 _ w) as [starts | e]; cbn [bind]; [| discriminate].
  destruct (run_loop fs thresh _ w starts init) as [st | e] eqn:L;
    cbn [bind]; [| discriminate].
  intros H. inversion H; subst. exists starts, st. auto.
Qed.

Lemma run_returns fs raw w thresh :
  ~ fs == 0 -> (0 < w)%Z ->
  exists st,
    run fs (mono raw) w thresh = Ok (tl (pitches st), all_pitches st).
Proof.
  intros Hfs Hw. rewrite (run_positive clean_audio find_peaks parabolic_interp
                            fs raw w thresh Hw).
  destruct (loop_total find_peaks parabolic_interp fs thresh (clean_audio raw)
              w (window_starts (clean_audio raw) w) init Hfs init_sentinel)
    as [st Hst].
  exists st. now rewrite Hst.
Qed.

(** X4.  Every event is a contour entry, in the same order: the event list is
    the contour with some entries left out. *)
Theorem events_within_contour (fs : Q) (buf : ndarray) (w : Z) (thresh : Q)
    (events contour : list (Q * Q)) :
  run fs buf w thresh = Ok (events, contour) ->
  subseq events contour
  /\ (length events <= length contour)%nat
  /\ (forall e, In e events -> In e contour).
Proof.
  intros H. destruct (run_ok_inv fs buf w thresh events contour H)
    as (starts & st & _ & L & -> & ->).
  assert (S : subseq (tl (pitches st)) (all_pitches st)).
  { apply (loop_preserves
             (fun s => subseq (tl (pitches s)) (all_pitches s))
             fs thresh (clean_audio (samples buf)) w)
      with (starts := starts) (st := init);
      [| exact init_sentinel | apply subseq_nil | exact L].
    intros i pp s s' [ev E] Hs Hb.
    destruct (body_cases fs thresh i pp s s' (ex_intro _ ev E) Hb)
      as [[_ ->] | (_ & pitch & _ & Ea & [[_ Ep] | [_ Ep]])];
      [exact Hs | |]; cbn zeta in *; rewrite Ea, Ep.
    - rewrite E in *. cbn [tl app] in *. now apply subseq_snoc_both.
    - now apply subseq_snoc_right. }
  split; [exact S |]. split; [now apply subseq_length |].
  intros e. now apply subseq_incl.
Qed.

(** X5.  Successive events are at least [thresh] apart in frequency, the first
    one being at least [thresh] away from 0 Hz. *)
Theorem events_are_spaced (fs : Q) (buf : ndarray) (w : Z) (thresh : Q)
    (events contour : list (Q * Q)) :
  run fs buf w thresh = Ok (events, contour) ->
  spaced thresh ((0, 0) :: events).
Proof.
  intros H. destruct (run_ok_inv fs buf w thresh events contour H)
    as (starts & st & _ & L & -> & _).
  destruct (loop_sentinel find_peaks parabolic_interp fs thresh _ w starts
              init st init_sentinel L) as [ev E].
  rewrite E. cbn [tl]. rewrite <- E.
  apply (loop_preserves (fun s => spaced thresh (pitches s)) fs thresh (clean_audio (samples buf)) w)
    with (starts := starts) (st := init);
    [| exact init_sentinel | exact I | exact L].
  intros i pp s s' [ev' E'] Hs Hb.
  destruct (body_cases fs thresh i pp s s' (ex_intro _ ev' E') Hb)
    as [[_ ->] | (_ & pitch & _ & _ & [[Hg Ep] | [_ Ep]])];
    [exact Hs | |]; cbn zeta in *; rewrite Ep; [| exact Hs].
  apply spaced_snoc; [exact Hs |]. intros p ps Epp. cbn [snd].
  rewrite Epp in Hg. now rewrite last_cons_default in Hg.
Qed.

(** X6.  With a threshold that is not positive nothing is filtered: the event
    list is the contour. *)
Theorem no_threshold_no_filter (fs : Q) (buf : ndarray) (w : Z) (thresh : Q)
    (events contour : list (Q * Q)) :
  thresh <= 0 ->
  run fs buf w thresh = Ok (events, contour) ->
  events = contour.
Proof.
  intros Ht H. destruct (run_ok_inv fs buf w thresh events contour H)
    as (starts & st & _ & L & -> & ->).
  apply (loop_preserves (fun s => tl (pitches s) = all_pitches s) fs thresh (clean_audio (samples buf)) w)
    with (starts := starts) (st := init);
    [| exact init_sentinel | reflexivity | exact L].
  intros i pp s s' [ev E] Hs Hb.
  destruct (body_cases fs thresh i pp s s' (ex_intro _ ev E) Hb)
    as [[_ ->] | (_ & pitch & _ & Ea & [[_ Ep] | [Hlt _]])];
    [exact Hs | |]; cbn zeta in *.
  - rewrite Ea, Ep, <- Hs, E. reflexivity.
  - exfalso. pose proof (Qabs_nonneg (pitch - snd (last (pitches s) (0, 0)))).
    lra.
Qed.

Lemma loop_contour fs thresh wave w starts : forall st st',
  sentinel_headed st ->
  run_loop fs thresh wave w starts st = Ok st' ->
  exists fresh,
    all_pitches st' = all_pitches st ++ fresh
    /\ Forall2 (stamped fs (cands fs wave w))
         (filter (fun i => negb (length (cands fs wave w i) =? 0)%nat) starts)
         fresh.
Proof.
  induction starts as [| i rest IH]; intros st st' Hs H; cbn [loop] in H.
  - inversion H; subst. exists []. split; [now rewrite app_nil_r | constructor].
  - destruct (body fs thresh i (cands fs wave w i) st) as [st1 | e] eqn:E;
      cbn [bind] in H; [| discriminate].
    destruct (IH st1 st' (body_sentinel fs thresh i _ st st1 Hs E) H)
      as (fresh & Ef & Ff).
    cbn [filter].
    destruct (body_cases fs thresh i _ st st1 Hs E)
      as [[Ee ->] | (Hne & pitch & Ep & Ea & _)].
    + rewrite Ee. cbn [length Nat.eqb negb]. exists fresh. now split.
    + destruct (cands fs wave w i) as [| c pp] eqn:Ec; [contradiction |].
      cbn [length Nat.eqb negb]. cbn zeta in *.
      exists ((inject_Z i / fs, pitch) :: fresh). split.
      * rewrite Ef, Ea, <- app_assoc. reflexivity.
      * constructor; [| exact Ff]. split; [reflexivity |]. cbn [snd].
        rewrite Ec, Ep. apply choose_first_two.
Qed.

(** X7.  The contour has exactly one entry per window that has a candidate, in
    the order of the windows; the entry of the window at offset [i] carries
    the time [i/fs] and the first or the second candidate of the window. *)
Theorem contour_follows_windows (fs : Q) (raw : list Q) (w : Z) (thresh : Q)
    (events contour : list (Q * Q)) :
  (0 < w)%Z ->
  run fs (mono raw) w thresh = Ok (events, contour) ->
  let wave := clean_audio raw in
  Forall2 (stamped fs (cands fs wave w))
    (filter (fun i => negb (length (cands fs wave w i) =? 0)%nat)
       (window_starts wave w))
    contour
  /\ (length contour <= length (window_starts wave w))%nat.
Proof.
  intros Hw H wave.
  rewrite (run_positive clean_audio find_peaks parabolic_interp fs raw w
             thresh Hw) in H. fold wave in H.
  destruct (run_loop fs thresh wave w (window_starts wave w) init)
    as [st | e] eqn:L; cbn [bind] in H; [| discriminate].
  inversion H; subst.
  destruct (loop_contour fs thresh wave w _ init st init_sentinel L)
    as (fresh & Ef & Ff).
  cbn [init all_pitches app] in Ef. rewrite Ef.
  split; [exact Ff |].
  rewrite <- (Forall2_length Ff). apply filter_length_le.
Qed.

End ReturnedLists.

(** ** detect_pitches: the contour runs forward in time *)

Lemma range_from_increasing (stop step : Z) :
  (0 < step)%Z ->
  forall fuel i,
    StronglySorted Z.lt (range_from fuel i stop step)
    /\ Forall (fun k => (i <= k)%Z) (range_from fuel i stop step).
Proof.
  intros Hs. induction fuel as [| fuel IH]; intros i; cbn [range_from].
  - split; constructor.
  - destruct (i <? stop)%Z; [| split; constructor].
    destruct (IH (i + step)%Z) as [S F]. split.
    + constructor; [exact S |].
      eapply Forall_impl; [| exact F]. cbn. intros k Hk. lia.
    + constructor; [lia |].
      eapply Forall_impl; [| exact F]. cbn. intros k Hk. lia.
Qed.

Lemma filter_keeps_order {A : Type} (R : A -> A -> Prop) (p : A -> bool) l :
  StronglySorted R l -> StronglySorted R (filter p l).
Proof.
  induction 1 as [| a l Hs IH Ha]; cbn; [constructor |].
  destruct (p a); [| exact IH].
  constructor; [exact IH |].
  apply Forall_forall. intros x Hx. apply filter_In in Hx.
  rewrite Forall_forall in Ha. now apply Ha.
Qed.

Lemma stamps_increase fs cands_of offsets entries :
  0 < fs ->
  Forall2 (stamped fs cands_of) offsets entries ->
  StronglySorted Z.lt offsets ->
  StronglySorted Qlt (map fst entries).
Proof.
  intros Hfs. induction 1 as [| i e offsets entries [Ei _] F IH]; intros S;
    cbn [map]; [constructor |].
  apply StronglySorted_inv in S. destruct S as [S Fi].
  constructor; [now apply IH |].
  clear IH S. induction F as [| i' e' offsets entries [Ei' _] F IH];
    cbn [map]; [constructor |].
  inversion Fi as [| ? ? Hlt Fi']; subst.
  constructor; [| now apply IH].
  rewrite Ei, Ei'. unfold Qdiv.
  apply Qmult_lt_compat_r; [now apply Qinv_lt_0_compat |].
  now rewrite <- Zlt_Qlt.
Qed.

(** X8.  With a positive sample rate and a positive window length the times of
    the contour increase strictly from one entry to the next. *)
Theorem contour_times_increase
    (clean_audio : list Q -> list Q) (find_peaks : list Q -> list nat)
    (parabolic_interp : list Q -> list nat -> list Q * list Q)
    (fs : Q) (raw : list Q) (w : Z) (thresh : Q)
    (events contour : list (Q * Q)) :
  0 < fs -> (0 < w)%Z ->
  detect_pitches clean_audio find_peaks parabolic_interp fs (mono raw) w thresh
  = Ok (events, contour) ->
  StronglySorted Qlt (map fst contour).
Proof.
  intros Hfs Hw H.
  rewrite (run_positive clean_audio find_peaks parabolic_interp fs raw w
             thresh Hw) in H.
  set (wave := clean_audio raw) in *.
  destruct (loop find_peaks parabolic_interp fs thresh wave w
              (window_starts wave w) init) as [st | e] eqn:L;
    cbn [bind] in H; [| discriminate].
  inversion H; subst.
  destruct (loop_contour find_peaks parabolic_interp fs thresh wave w _ init st
              init_sentinel L) as (fresh & Ef & Ff).
  cbn [init all_pitches app] in Ef. rewrite Ef.
  apply (stamps_increase fs _ _ _ Hfs Ff).
  apply filter_keeps_order. unfold window_starts.
  apply (range_from_increasing _ w Hw).
Qed.

(** ** detect_pitch_autocorr: what lines 75-76 compute *)

Lemma sum_ext (f g : nat -> Q) l :
  (forall i, In i l -> f i == g i) ->
  fold_right Qplus 0 (map f l) == fold_right Qplus 0 (map g l).
Proof.
  induction l as [| a l IH]; intros H; cbn; [reflexivity |].
  rewrite (H a (or_introl eq_refl)), IH; [reflexivity |].
  intros i Hi. apply H. now right.
Qed.

Lemma sum_zero (f : nat -> Q) l :
  (forall i, In i l -> f i == 0) -> fold_right Qplus 0 (map f l) == 0.
Proof.
  induction l as [| a l IH]; intros H; cbn; [reflexivity |].
  rewrite (H a (or_introl eq_refl)), IH; [reflexivity |].
  intros i Hi. apply H. now right.
Qed.

Lemma sum_nonneg (f : nat -> Q) l :
  (forall i, In i l -> 0 <= f i) -> 0 <= fold_right Qplus 0 (map f l).
Proof.
  induction l as [| a l IH]; intros H; cbn; [lra |].
  pose proof (H a (or_introl eq_refl)).
  assert (0 <= fold_right Qplus 0 (map f l))
    by (apply IH; intros i Hi; apply H; now right).
  lra.
Qed.

Lemma sum_shift (f : nat -> Q) n :
  fold_right Qplus 0 (map f (seq 0 (S n)))
  = f O + fold_right Qplus 0 (map (fun i => f (S i)) (seq 0 n)).
Proof.
  cbn [seq map fold_right]. now rewrite <- seq_shift, map_map.
Qed.

Lemma nth_vadd u : forall v m,
  nth m (vadd u v) 0 == nth m u 0 + nth m v 0.
Proof.
  induction u as [| x u IH]; intros v m.
  - cbn [vadd]. destruct m; cbn; lra.
  - destruct v as [| y v]; cbn [vadd].
    + destruct m; cbn; lra.
    + destruct m; cbn [nth]; [reflexivity | apply IH].
Qed.

Lemma nth_scaled x b : forall m, nth m (map (Qmult x) b) 0 == x * nth m b 0.
Proof.
  induction b as [| y b IH]; intros m.
  - destruct m; cbn; lra.
  - destruct m; cbn [map nth]; [reflexivity | apply IH].
Qed.

Lemma nth_delayed c m :
  nth m (match c with [] => [] | y :: c' => 0 :: y :: c' end) 0
  = match m with O => 0 | S m' => nth m' c 0 end.
Proof.
  destruct c as [| y c]; [| now destruct m].
  destruct m as [| m]; [reflexivity | now destruct m].
Qed.

(** Entry [m] of the full convolution. *)
Lemma fftconvolve_nth a b : forall m,
  nth m (fftconvolve a b) 0
  == fold_right Qplus 0
       (map (fun i => nth i a 0
                      * (if (i <=? m)%nat then nth (m - i) b 0 else 0))
            (seq 0 (length a))).
Proof.
  induction a as [| x a IH]; intros m.
  - destruct m; reflexivity.
  - cbn [fftconvolve length]. rewrite nth_vadd, nth_scaled, nth_delayed.
    rewrite sum_shift. cbn [nth Nat.leb]. rewrite Nat.sub_0_r.
    apply Qplus_comp; [reflexivity |].
    destruct m as [| m].
    + symmetry. apply sum_zero. intros i _. cbn. lra.
    + rewrite IH. reflexivity.
Qed.

Lemma length_vadd u : forall v,
  length (vadd u v) = Nat.max (length u) (length v).
Proof.
  induction u as [| x u IH]; intros [| y v]; cbn; auto.
Qed.

Lemma fftconvolve_nil_r a : fftconvolve a [] = [].
Proof.
  induction a as [| x a IH]; [reflexivity |].
  cbn [fftconvolve map]. now rewrite IH.
Qed.

Lemma length_fftconvolve a b :
  length (fftconvolve a b)
  = match a, b with
    | [], _ | _, [] => O
    | _ :: _, _ :: _ => (length a + length b - 1)%nat
    end.
Proof.
  induction a as [| x a IH]; [reflexivity |].
  destruct b as [| y b]; [now rewrite fftconvolve_nil_r |].
  cbn [fftconvolve]. rewrite length_vadd, length_map.
  destruct a as [| x' a]; [cbn; lia |].
  destruct (fftconvolve (x' :: a) (y :: b)) as [| c cs]; cbn in *; lia.
Qed.

Lemma length_autocorr s : length (autocorr s) = length s.
Proof.
  unfold autocorr. cbn zeta. rewrite length_skipn, length_fftconvolve.
  destruct s as [| x s]; [reflexivity |].
  destruct (rev (x :: s)) as [| y r] eqn:E.
  - apply (f_equal (@length Q)) in E. rewrite length_rev in E. discriminate.
  - apply (f_equal (@length Q)) in E. rewrite length_rev in E. rewrite <- E.
    set (n := length (x :: s)). assert (1 <= n)%nat by (unfold n; cbn; lia).
    assert (D : ((n + n - 1) / 2 = n - 1)%nat).
    { symmetry. apply (Nat.div_unique _ 2 _ 1); lia. }
    rewrite D. lia.
Qed.

(** X9.  Lines 75-76 compute the autocorrelation of the segment: the array kept
    has one entry per sample, entry [k] is the sum of the products of the
    samples [k] apart, and entry 0, the energy, is not negative. *)
Theorem autocorr_is_lag_sum (s : list Q) :
  length (autocorr s) = length s
  /\ (forall k, nth k (autocorr s) 0 == lag_sum s k)
  /\ 0 <= nth 0 (autocorr s) 0.
Proof.
  assert (F : forall k, nth k (autocorr s) 0 == lag_sum s k).
  { intros k. destruct (Nat.lt_ge_cases k (length s)) as [Hk | Hk].
    - unfold autocorr. cbn zeta. rewrite nth_skipn, fftconvolve_nth.
      assert (L : (length (fftconvolve s (rev s)) / 2 = length s - 1)%nat).
      { pose proof (length_autocorr s) as La. unfold autocorr in La.
        cbn zeta in La. rewrite length_skipn in La.
        rewrite length_fftconvolve in *.
        destruct s as [| x s]; [cbn in Hk; lia |].
        destruct (rev (x :: s)) as [| y r] eqn:E.
        + apply (f_equal (@length Q)) in E. rewrite length_rev in E.
          discriminate.
        + apply (f_equal (@length Q)) in E. rewrite length_rev in E.
          rewrite <- E in *. cbn [length] in *. lia. }
      rewrite L. unfold lag_sum. apply sum_ext. intros i Hi.
      apply in_seq in Hi.
      replace (i <=? length s - 1 + k)%nat with true
        by (symmetry; apply Nat.leb_le; lia).
      destruct (k <=? i)%nat eqn:E.
      + apply Nat.leb_le in E. rewrite rev_nth by lia.
        now replace (length s - S (length s - 1 + k - i))%nat
          with (i - k)%nat by lia.
      + apply Nat.leb_gt in E.
        rewrite (nth_overflow (rev s)) by (rewrite length_rev; lia).
        reflexivity.
    - rewrite nth_overflow by (rewrite length_autocorr; lia).
      symmetry. unfold lag_sum. apply sum_zero. intros i Hi.
      apply in_seq in Hi.
      replace (k <=? i)%nat with false by (symmetry; apply Nat.leb_gt; lia).
      lra. }
  split; [apply length_autocorr |]. split; [exact F |].
  rewrite (F O). unfold lag_sum. apply sum_nonneg. intros i _.
  cbn [Nat.leb]. rewrite Nat.sub_0_r. nra.
Qed.

(** ** column_wise_local_max: what the mask never holds *)

(** X10.  On any rectangular array and for any threshold the mask has the shape
    of the array and bin 0 is never marked: line 62 compares row 0,
    strictly, with the copy of itself that edge padding puts below it. *)
Theorem mask_skips_bin_zero (x : matrix) (thresh : Q) (nb nt : nat) :
  shape nb nt x -> (0 < nb)%nat ->
  exists mask,
    column_wise_local_max x thresh = Ok mask
    /\ shape nb nt mask
    /\ forall j, ~ In (O, j) (argwhere mask).
Proof.
  intros Hx H.
  destruct (mask_entry nb nt x thresh Hx H)
    as (cm & mask & _ & _ & _ & Em & Sm & Hentry).
  exists mask. split; [exact Em |]. split; [exact Sm |].
  intros j Hin. apply argwhere_spec in Hin. destruct Hin as (_ & Hj & T).
  rewrite (shape_row nb nt mask O Sm H) in Hj.
  rewrite (Hentry O j H Hj) in T. cbn zeta in T.
  apply andb_true_iff in T. destruct T as [T _].
  apply Qgtb_gt in T. cbn [Nat.sub] in T. lra.
Qed.

(** X11.  Two bins next to each other in one frame are never both marked. *)
Theorem peaks_are_isolated (x : matrix) (thresh : Q) (nb nt : nat) :
  shape nb nt x -> (0 < nb)%nat ->
  exists mask,
    column_wise_local_max x thresh = Ok mask
    /\ forall b j, In (b, j) (argwhere mask) -> ~ In (S b, j) (argwhere mask).
Proof.
  intros Hx H.
  destruct (mask_entry nb nt x thresh Hx H)
    as (cm & mask & _ & _ & _ & Em & Sm & Hentry).
  exists mask. split; [exact Em |].
  intros b j Hlo Hhi. apply argwhere_spec in Hlo, Hhi.
  destruct Sm as [Lm Fm]. rewrite Lm in Hlo, Hhi.
  destruct Hlo as (Hb & Hj & Tlo). destruct Hhi as (Hb' & _ & Thi).
  rewrite (shape_row nb nt mask b (conj Lm Fm) Hb) in Hj.
  rewrite (Hentry b j Hb Hj) in Tlo. rewrite (Hentry (S b) j Hb' Hj) in Thi.
  cbn zeta in Tlo, Thi.
  apply andb_true_iff in Tlo, Thi. destruct Tlo as [_ Tlo], Thi as [Thi _].
  replace (b + 1 <? nb)%nat with true in Tlo
    by (symmetry; apply Nat.ltb_lt; lia).
  apply Qgeb_ge in Tlo. apply Qgtb_gt in Thi.
  replace (S b - 1)%nat with b in Thi by lia.
  replace (b + 1)%nat with (S b) in Tlo by lia. lra.
Qed.

(** ** detect_pitch_parabolic: interpolation, result, buffer *)

(** X12.  The skew correction of line 37 is never negative, so the magnitude
    stored for a position is never below the raw one; at the first and the
    last bin, where lines 35-36 pad with zeros, nothing is interpolated:
    the stored magnitude is the raw one and the stored frequency is that
    of the bin centre. *)
Theorem skew_never_lowers (spec : matrix) (sample_rate : Q) (nb nt b j : nat) :
  shape nb nt spec -> (b < nb)%nat -> (j < nt)%nat ->
  mget spec b j <= peak_magnitude spec b j
  /\ ((b = 0 \/ b + 1 = nb)%nat ->
      peak_magnitude spec b j == mget spec b j
      /\ peak_frequency spec sample_rate b j
         == inject_Z (Z.of_nat b) * sample_rate / inject_Z win_len).
Proof.
  intros Hs Hb Hj. split.
  - unfold peak_magnitude.
    pose proof (dskew_nonneg nb nt spec b j Hs Hb Hj). lra.
  - intros He. unfold peak_magnitude, peak_frequency.
    rewrite (dskew_at nb nt spec Hs b j Hb Hj).
    destruct (padded_edge nb nt spec Hs b j Hb He) as [-> ->].
    split; [lra |]. now rewrite Qplus_0_r.
Qed.

Lemma table_rows nb nt spec idx vals a :
  shape nb nt spec -> (a < nb)%nat ->
  length (nth a (scatter (mmap (fun _ : Q => 0) spec) idx vals) []) = nt.
Proof.
  intros Hs Ha. unfold scatter.
  destruct (scatter_shape_kept (combine idx vals) (mmap (fun _ : Q => 0) spec))
    as [_ R]. cbn zeta in R. rewrite R.
  apply (shape_row nb nt _ a (shape_mmap _ nb nt spec Hs) Ha).
Qed.

(** X13.  On a rectangular STFT the call fails, with the ValueError of [np.max],
    exactly when there is no bin; otherwise it returns an array with one
    row per frame, each row as long as there are frames (line 50 picks
    whole rows of the pitch table). *)
Theorem parabolic_result_shape
    (stft_mag : list Q -> Z -> Q -> matrix) (freqs_of_fft : Q -> Z -> list Q)
    (signal : list Q) (fs : Q) (nb nt : nat) :
  let spec := stft_mag (map (fun x => x - mean signal) signal) win_len
                (inject_Z win_len / 4) in
  let returned := snd (detect_pitch_parabolic stft_mag freqs_of_fft signal fs) in
  shape nb nt spec ->
  (nb = O -> returned = Raise ValueError)
  /\ ((0 < nb)%nat -> exists out, returned = Ok out /\ shape nt nt out).
Proof.
  intros spec returned Hs. unfold returned, detect_pitch_parabolic.
  cbn [snd]. fold spec. split.
  - intros E. destruct Hs as [L _]. rewrite E in L.
    destruct spec; [reflexivity | discriminate].
  - intros Hnb.
    destruct (mask_entry nb nt spec max_thresh Hs Hnb)
      as (cm & mask & _ & _ & _ & Em & _ & _).
    unfold parabolic_of_spec. rewrite Em. cbn [bind].
    set (idx := argwhere mask). set (M := magnitude_table spec idx).
    destruct (table_shape nb nt spec idx
                (map (fun e => peak_magnitude spec (fst e) (snd e)) idx)
                Hs Hnb) as [LM CM].
    fold (magnitude_table spec idx) in LM, CM. fold M in LM, CM.
    eexists. split; [reflexivity |]. split.
    + unfold argmax_axis0. now rewrite !length_map, length_seq.
    + apply Forall_forall. intros r Hr. apply in_map_iff in Hr.
      destruct Hr as (a & <- & Ha). unfold argmax_axis0 in Ha.
      apply in_map_iff in Ha. destruct Ha as (j & <- & _).
      apply (table_rows nb nt spec); [exact Hs |].
      assert (Hcol : column M j <> []).
      { intros E. apply (f_equal (@length Q)) in E. unfold column in E.
        rewrite length_map, LM in E. cbn in E. lia. }
      destruct (argmax_spec (column M j) Hcol) as (Ha & _).
      unfold column in Ha at 2. now rewrite length_map, LM in Ha.
Qed.

(** ** The further properties on concrete inputs *)

Module MoreRuns.

Local Abbreviation cands := (candidates Util.find_peaks Util.parabolic_interp).
Local Abbreviation run :=
  (detect_pitches Util.clean_audio Util.find_peaks Util.parabolic_interp).

Lemma rate_12_is_not_zero : ~ 12 == 0.
Proof. intros H. discriminate H. Qed.

Lemma rate_60_is_not_zero : ~ 60 == 0.
Proof. intros H. discriminate H. Qed.

Lemma failure_only_on_zero_rate_witness :
  run 0 (mono Examples.two_windows) 8 10 = Raise ZeroDivisionError
  /\ exists events contour,
       run 12 (mono Examples.two_windows) 8 10 = Ok (events, contour).
Proof.
  assert (Hw : (0 < 8)%Z) by lia. split.
  - apply (failure_only_on_zero_rate Util.clean_audio Util.find_peaks
             Util.parabolic_interp 0 Examples.two_windows 8 10 Hw).
    split; [reflexivity |]. exists 0%Z. split.
    + vm_compute. left. reflexivity.
    + vm_compute. discriminate.
  - apply (failure_only_on_zero_rate Util.clean_audio Util.find_peaks
             Util.parabolic_interp 12 Examples.two_windows 8 10 Hw).
    intros [H _]. exact (rate_12_is_not_zero H).
Defined.

Lemma windows_tile_the_signal_witness :
  concat (map (window Examples.two_windows 8)
            (window_starts Examples.two_windows 8))
  = Examples.two_windows.
Proof.
  assert (Hw : (0 < 8)%Z) by lia.
  exact (proj1 (windows_tile_the_signal Examples.two_windows 8 Hw)).
Defined.

Lemma events_within_contour_witness :
  exists events contour,
    run 60 (mono Examples.three_windows) 7 5 = Ok (events, contour)
    /\ subseq events contour.
Proof.
  assert (Hw : (0 < 7)%Z) by lia.
  destruct (run_returns Util.clean_audio Util.find_peaks Util.parabolic_interp
              60 Examples.three_windows 7 5 rate_60_is_not_zero Hw) as [st E].
  exists (tl (pitches st)), (all_pitches st). split; [exact E |].
  exact (proj1 (events_within_contour Util.clean_audio Util.find_peaks
                  Util.parabolic_interp 60 _ 7 5 _ _ E)).
Defined.

Lemma events_are_spaced_witness :
  exists events contour,
    run 60 (mono Examples.three_windows) 7 5 = Ok (events, contour)
    /\ spaced 5 ((0, 0) :: events).
Proof.
  assert (Hw : (0 < 7)%Z) by lia.
  destruct (run_returns Util.clean_audio Util.find_peaks Util.parabolic_interp
              60 Examples.three_windows 7 5 rate_60_is_not_zero Hw) as [st E].
  exists (tl (pitches st)), (all_pitches st). split; [exact E |].
  exact (events_are_spaced Util.clean_audio Util.find_peaks
           Util.parabolic_interp 60 _ 7 5 _ _ E).
Defined.

Lemma no_threshold_no_filter_witness :
  exists events contour,
    run 60 (mono Examples.three_windows) 7 0 = Ok (events, contour)
    /\ events = contour.
Proof.
  assert (Hw : (0 < 7)%Z) by lia.
  assert (Ht : 0 <= 0) by lra.
  destruct (run_returns Util.clean_audio Util.find_peaks Util.parabolic_interp
              60 Examples.three_windows 7 0 rate_60_is_not_zero Hw) as [st E].
  exists (tl (pitches st)), (all_pitches st). split; [exact E |].
  exact (no_threshold_no_filter Util.clean_audio Util.find_peaks
           Util.parabolic_interp 60 _ 7 0 _ _ Ht E).
Defined.

Lemma contour_follows_windows_witness :
  exists events contour,
    run 60 (mono Examples.three_windows) 7 5 = Ok (events, contour)
    /\ (length contour
        <= length (window_starts (Util.clean_audio Examples.three_windows) 7))%nat.
Proof.
  assert (Hw : (0 < 7)%Z) by lia.
  destruct (run_returns Util.clean_audio Util.find_peaks Util.parabolic_interp
              60 Examples.three_windows 7 5 rate_60_is_not_zero Hw) as [st E].
  exists (tl (pitches st)), (all_pitches st). split; [exact E |].
  exact (proj2 (contour_follows_windows Util.clean_audio Util.find_peaks
                  Util.parabolic_interp 60 _ 7 5 _ _ Hw E)).
Defined.

Lemma contour_times_increase_witness :
  exists events contour,
    run 60 (mono Examples.three_windows) 7 5 = Ok (events, contour)
    /\ StronglySorted Qlt (map fst contour).
Proof.
  assert (Hw : (0 < 7)%Z) by lia.
  assert (Hfs : 0 < 60) by reflexivity.
  destruct (run_returns Util.clean_audio Util.find_peaks Util.parabolic_interp
              60 Examples.three_windows 7 5 rate_60_is_not_zero Hw) as [st E].
  exists (tl (pitches st)), (all_pitches st). split; [exact E |].
  exact (contour_times_increase Util.clean_audio Util.find_peaks
           Util.parabolic_interp 60 _ 7 5 _ _ Hfs Hw E).
Defined.

Lemma grid_shape : shape 5 2 Examples.grid /\ (0 < 5)%nat.
Proof. split; [split; [reflexivity | repeat constructor] | lia]. Qed.

Lemma mask_skips_bin_zero_witness :
  exists mask,
    column_wise_local_max Examples.grid max_thresh = Ok mask
    /\ forall j, ~ In (O, j) (argwhere mask).
Proof.
  destruct (mask_skips_bin_zero Examples.grid max_thresh 5 2
              (proj1 grid_shape) (proj2 grid_shape)) as (mask & E & _ & N).
  exists mask. split; [exact E | exact N].
Defined.

Lemma peaks_are_isolated_witness :
  exists mask,
    column_wise_local_max Examples.grid max_thresh = Ok mask
    /\ forall b j, In (b, j) (argwhere mask) -> ~ In (S b, j) (argwhere mask).
Proof.
  exact (peaks_are_isolated Examples.grid max_thresh 5 2
           (proj1 grid_shape) (proj2 grid_shape)).
Defined.

Lemma skew_never_lowers_witness :
  mget Examples.grid 3 0 <= peak_magnitude Examples.grid 3 0.
Proof.
  assert (Hb : (3 < 5)%nat) by lia. assert (Hj : (0 < 2)%nat) by lia.
  exact (proj1 (skew_never_lowers Examples.grid 44100 5 2 3 0
                  (proj1 grid_shape) Hb Hj)).
Defined.

Lemma parabolic_result_shape_witness :
  exists out,
    snd (detect_pitch_parabolic (fun _ _ _ => Examples.grid) (fun _ _ => [])
           [1; 3] 4096) = Ok out
    /\ shape 2 2 out.
Proof.
  exact (proj2 (parabolic_result_shape (fun _ _ _ => Examples.grid)
                  (fun _ _ => []) [1; 3] 4096 5 2 (proj1 grid_shape))
           (proj2 grid_shape)).
Defined.

End MoreRuns.

(** ** detect_pitches: a signal that fits in one window *)

Lemma single_start (wave : list Q) (w : Z) :
  (0 < length wave)%nat -> (Z.of_nat (length wave) <= w)%Z ->
  window_starts wave w = [0%Z] /\ window wave w 0 = wave.
Proof.
  intros Hn Hw. split.
  - unfold window_starts. destruct (length wave) as [| n] eqn:E; [lia |].
    cbn [range_from].
    replace (0 <? Z.of_nat (S n))%Z with true
      by (symmetry; apply Z.ltb_lt; lia).
    f_equal. destruct n as [| n]; [reflexivity |]. cbn [range_from].
    now replace (0 + w <? Z.of_nat (S (S n)))%Z with false
      by (symmetry; apply Z.ltb_ge; lia).
  - unfold window, slice. rewrite Z.min_l by lia.
    cbn [Z.to_nat skipn]. rewrite Z.sub_0_r, Nat2Z.id. apply firstn_all.
Qed.

(** X15.  When the cleaned signal is not empty and fits in one window, only
    offset 0 is visited and the octave test does not apply: without a
    candidate both lists come back empty; otherwise the contour is the
    single entry (0, first candidate), and the event list holds that entry
    when the candidate is at least [thresh] away from 0 Hz and is empty
    when it is not. *)
Theorem one_window_signal
    (clean_audio : list Q -> list Q) (find_peaks : list Q -> list nat)
    (parabolic_interp : list Q -> list nat -> list Q * list Q)
    (fs : Q) (raw : list Q) (w : Z) (thresh : Q) :
  let wave := clean_audio raw in
  let pp := detect_pitch_autocorr find_peaks parabolic_interp wave fs in
  ~ fs == 0 ->
  (0 < length wave)%nat -> (Z.of_nat (length wave) <= w)%Z ->
  detect_pitches clean_audio find_peaks parabolic_interp fs (mono raw) w thresh
  = match pp with
    | [] => Ok ([], [])
    | c0 :: _ =>
        Ok (if Qgeb (Qabs (c0 - 0)) thresh then [(inject_Z 0 / fs, c0)] else [],
            [(inject_Z 0 / fs, c0)])
    end.
Proof.
  intros wave pp Hfs Hn Hw.
  assert (Hpos : (0 < w)%Z) by lia.
  rewrite (run_positive clean_audio find_peaks parabolic_interp fs raw w
             thresh Hpos). fold wave.
  destruct (single_start wave w Hn Hw) as [-> Ewin].
  cbn [loop]. unfold candidates. rewrite Ewin. fold pp.
  destruct pp as [| c0 rest] eqn:Epp; [reflexivity |].
  rewrite (body_nonempty fs thresh 0 (c0 :: rest) init _ _ Hfs)
    by (try discriminate; reflexivity).
  cbn [bind init pitches all_pitches last snd app].
  assert (Ec : choose_pitch 0 (c0 :: rest) 0 = c0).
  { unfold choose_pitch. cbn [Z.eqb negb nth]. now rewrite andb_false_r. }
  rewrite Ec. now destruct (Qgeb (Qabs (c0 - 0)) thresh).
Qed.

Module ShortRuns.

Lemma one_window_signal_witness :
  exists events contour,
    detect_pitches Util.clean_audio Util.find_peaks Util.parabolic_interp
      12 (mono Examples.two_windows) 16 2 = Ok (events, contour)
    /\ length contour = 1%nat /\ events = contour.
Proof.
  assert (Hfs : ~ 12 == 0) by (intros H; discriminate H).
  assert (Hn : (0 < length (Util.clean_audio Examples.two_windows))%nat)
    by (vm_compute; lia).
  assert (Hw : (Z.of_nat (length (Util.clean_audio Examples.two_windows))
                <= 16)%Z) by (vm_compute; discriminate).
  rewrite (one_window_signal Util.clean_audio Util.find_peaks
             Util.parabolic_interp 12 Examples.two_windows 16 2 Hfs Hn Hw).
  vm_compute. eexists. eexists. repeat split.
Defined.

End ShortRuns.

(** ** Segments without a pitch *)

Lemma autocorr_of_zeros n k : nth k (autocorr (repeat 0 n)) 0 == 0.
Proof.
  unfold autocorr. cbn zeta. rewrite nth_skipn, fftconvolve_nth.
  apply sum_zero. intros i _.
  assert (Z : nth i (repeat 0 n) 0 = 0).
  { destruct (nth_in_or_default i (repeat 0 n) 0) as [I | E]; [| exact E].
    now apply repeat_spec in I. }
  rewrite Z. lra.
Qed.

(** C7, as the code has it.  When the folded autocorrelation of a segment
    has no interior strict local maximum, [detect_pitch_autocorr] returns
    the empty sequence, and a window holding such a segment leaves both the
    contour and the event list as they were, wherever it comes in the run.
    Every all-zero segment, the empty one included, is such a segment.
    (A strictly monotonic segment need not be one.) *)
Theorem silent_segment_no_pitch :
  (forall (parabolic_interp : list Q -> list nat -> list Q * list Q)
          (segment : list Q) (fs : Q),
     (forall k, ~ interior_max (autocorr segment) k) ->
     detect_pitch_autocorr Util.find_peaks parabolic_interp segment fs = []
     /\ (forall thresh i st,
           body fs thresh i
             (detect_pitch_autocorr Util.find_peaks parabolic_interp segment fs)
             st = Ok st)
     /\ (forall thresh wave w pre i st,
           window wave w i = segment ->
           loop Util.find_peaks parabolic_interp fs thresh wave w
             (pre ++ [i]) st
           = loop Util.find_peaks parabolic_interp fs thresh wave w pre st))
  /\ (forall n k, ~ interior_max (autocorr (repeat 0 n)) k).
Proof.
  split.
  - intros parabolic_interp segment fs H.
    assert (E : detect_pitch_autocorr Util.find_peaks parabolic_interp
                  segment fs = []).
    { unfold detect_pitch_autocorr. now rewrite (find_peaks_none _ H). }
    split; [exact E |]. split.
    + intros thresh i st. now rewrite E.
    + intros thresh wave w pre i st Hw. rewrite loop_app.
      destruct (loop Util.find_peaks parabolic_interp fs thresh wave w pre st)
        as [st1 | e]; cbn [bind loop]; [| reflexivity].
      unfold candidates. rewrite Hw, E. reflexivity.
  - intros n k (_ & _ & H & _).
    rewrite (autocorr_of_zeros n k), (autocorr_of_zeros n (k - 1)) in H. lra.
Qed.

Module Silence.

(** C7 fails as stated.  [Examples.rising] is strictly rising, yet its
    autocorrelation has an interior maximum at lag 5: a candidate comes
    back, and the window enters the contour. *)
Lemma rising_segment_yields_candidate :
  StronglySorted Qlt Examples.rising
  /\ map Qred (autocorr Examples.rising) = [348; 155; 76; -41; -117; -115; -132]
  /\ interior_max (autocorr Examples.rising) 5
  /\ Util.find_peaks (autocorr Examples.rising) = [5%nat]
  /\ length (detect_pitch_autocorr Util.find_peaks Util.parabolic_interp
               Examples.rising 44100) = 1%nat
  /\ match body 44100 10 0
             (detect_pitch_autocorr Util.find_peaks Util.parabolic_interp
                Examples.rising 44100) init with
     | Ok st => length (all_pitches st) = 1%nat
     | Raise _ => False
     end.
Proof.
  split; [repeat (constructor; try reflexivity) |].
  split; [vm_compute; reflexivity |].
  split.
  { unfold interior_max. split; [lia |]. split; [vm_compute; lia |].
    split; vm_compute; reflexivity. }
  vm_compute. repeat split.
Qed.

Lemma silent_segment_no_pitch_witness :
  detect_pitch_autocorr Util.find_peaks Util.parabolic_interp (repeat 0 4) 44100
  = []
  /\ detect_pitch_autocorr Util.find_peaks Util.parabolic_interp [] 44100 = []
  /\ detect_pitch_autocorr Util.find_peaks Util.parabolic_interp [1; 2; 3] 44100
     = [].
Proof.
  destruct silent_segment_no_pitch as [Gen Zeros].
  split; [| split].
  - exact (proj1 (Gen Util.parabolic_interp (repeat 0 4) 44100 (Zeros 4%nat))).
  - exact (proj1 (Gen Util.parabolic_interp [] 44100 (Zeros 0%nat))).
  - exact (proj1 (Gen Util.parabolic_interp [1; 2; 3] 44100
                    rising_has_no_peak)).
Defined.

End Silence.

Module EmptyInput.

Lemma assertion_iff_not_mono_witness :
  detect_pitches Util.clean_audio Util.find_peaks Util.parabolic_interp
    44100 (mono []) 2048 10 = Ok ([], [])
  /\ detect_pitches Util.clean_audio Util.find_peaks Util.parabolic_interp
       44100 (mono []) 0 10 = Raise ValueError
  /\ detect_pitches Util.clean_audio Util.find_peaks Util.parabolic_interp
       44100 {| ndim := 2; samples := [1; 2; 3; 4] |} 2048 10
     = Raise AssertionError.
Proof.
  split; [| split].
  - apply (assertion_iff_not_mono Util.clean_audio Util.find_peaks
             Util.parabolic_interp 44100 (mono []) 2048 10);
      [reflexivity | reflexivity | discriminate].
  - apply (assertion_iff_not_mono Util.clean_audio Util.find_peaks
             Util.parabolic_interp 44100 (mono []) 0 10); reflexivity.
  - apply (assertion_iff_not_mono Util.clean_audio Util.find_peaks
             Util.parabolic_interp 44100 {| ndim := 2; samples := [1; 2; 3; 4] |}
             2048 10).
    cbn [ndim]. discriminate.
Defined.

End EmptyInput.
